(** * Archify: playlist retrieval and archival pipeline

    A shallow embedding of [src/playlist_logic.py] and of the command
    loop of [src/archify.py], and the properties of the pagination
    loops, name resolver, track formatter, archive writer, handlers and
    command loop.

    Conventions of the embedding.
    - A Python [str] is a [string]; concatenation, equality and the
      replacement of one ASCII character are exact on it.  The text
      library calls whose behaviour depends on the Unicode tables
      ([unicodedata.normalize], [str.lower], [str.strip]) and the
      scorer of [thefuzz] are the fields of the class [TextLib]; the
      theorems hold for every instance, and [ascii_text] is their
      behaviour on ASCII text, used to run concrete scenarios.
    - The remote service [sp] is a record of two request functions of
      the limit and the offset; a request answers with a page or raises.
    - Handlers run in the monad [M]: a state (files, directories,
      printed lines) threaded through, and an outcome that is a value,
      a raised exception, or [OutOfFuel] for a [while True] loop that
      has not left after [fuel] iterations.
    - The console is the list of what it was given; a handler takes it
      and leaves it, also when it raises.  A string given to the console
      is read as markup, and the print raises [MarkupError] on a closing
      tag that closes nothing.  The calls of the host that the command
      loop and the archive view rely on ([str.split], [str.title],
      [os.listdir], the texts of exceptions, the reading of markup) are
      the fields of the class [Host].
    - A file is known by the text of its path, and the file system
      refuses a directory or a file when it is made or opened; the
      theorems on archives speak of paths that are entries of the
      directory [archive] and of writes that go through once the file
      is open. *)

From Stdlib Require Import Ascii String.
From stdpp Require Import base option list strings pretty gmap.

Open Scope string_scope.
Open Scope list_scope.
Open Scope nat_scope.
Open Scope stdpp_scope.

(** ** Text *)

Definition nl : string := String "010"%char EmptyString.

Class TextLib := {
  (** [unicodedata.normalize('NFKC', s)] *)
  nfkc : string → string;
  (** [s.lower()] *)
  lower : string → string;
  (** [s.strip()] *)
  strip : string → string;
  (** [process.extractBests(query, choices, score_cutoff=c, limit=n)]:
      the choices scoring at least [c], best first, at most [n]. *)
  extractBests : string → list string → nat → nat → list (string * nat)
}.

(** [s.replace(' ', '_')] *)
Fixpoint replace_space (s : string) : string :=
  match s with
  | EmptyString => EmptyString
  | String c s' =>
      String (if Ascii.eqb c " "%char then "_"%char else c) (replace_space s')
  end.

(** [sep.join(parts)] *)
Fixpoint join (sep : string) (parts : list string) : string :=
  match parts with
  | [] => EmptyString
  | [p] => p
  | p :: ps => p +:+ sep +:+ join sep ps
  end.

(** Truthiness of a Python string that may be [None]. *)
Definition truthy (o : option string) : bool :=
  match o with
  | None | Some EmptyString => false
  | Some _ => true
  end.

(** *** The text library on ASCII *)

Module Ascii7.

Definition lower_char (c : ascii) : ascii :=
  let n := Ascii.nat_of_ascii c in
  if (65 <=? n)%nat && (n <=? 90)%nat then Ascii.ascii_of_nat (n + 32) else c.

Fixpoint lower (s : string) : string :=
  match s with
  | EmptyString => EmptyString
  | String c s' => String (lower_char c) (lower s')
  end.

(** [str.isspace] on a 7-bit character: TAB..CR, FS..US and space. *)
Definition is_space (c : ascii) : bool :=
  let n := Ascii.nat_of_ascii c in
  ((9 <=? n)%nat && (n <=? 13)%nat) || ((28 <=? n)%nat && (n <=? 32)%nat).

Fixpoint lstrip (s : string) : string :=
  match s with
  | EmptyString => EmptyString
  | String c s' => if is_space c then lstrip s' else s
  end.

Fixpoint rstrip (s : string) : string :=
  match s with
  | EmptyString => EmptyString
  | String c s' =>
      match rstrip s' with
      | EmptyString => if is_space c then EmptyString else String c EmptyString
      | r => String c r
      end
  end.

Definition strip (s : string) : string := rstrip (lstrip s).

End Ascii7.

(** NFKC leaves ASCII text as it is; the scorer stays a parameter. *)
Definition ascii_text
    (scorer : string → list string → nat → nat → list (string * nat)) : TextLib :=
  {| nfkc := λ s, s;
     lower := Ascii7.lower;
     strip := Ascii7.strip;
     extractBests := scorer |}.

(** ** Data of the remote service *)

Record Playlist := { pl_id : string; pl_name : string }.

(** An artist entry; its name may be null. *)
Record Artist := { artist_name : option string }.

Record Track := { track_name : string; track_artists : list Artist }.

(** A playlist item; its track is null when the track is unavailable. *)
Record Item := { item_track : option Track }.

(** A page of a listing: the items and the URL of the next page, if any. *)
Record Page (A : Type) := { items : list A; next : option string }.
Arguments items {A} _.
Arguments next {A} _.

Inductive exn :=
  | PlaylistArchiverError (msg : string)
  | SpotifyException (msg : string)
  | OSError (path : string)
  | MarkupError (markup : string).

Inductive response (A : Type) :=
  | Ok (page : Page A)
  | Fail (e : exn).
Arguments Ok {A} _.
Arguments Fail {A} _.

(** The client: [current_user_playlists limit offset] and
    [playlist_tracks playlist_id offset limit]. *)
Record Spotify := {
  current_user_playlists : nat → nat → response Playlist;
  playlist_tracks : string → nat → nat → response Item
}.

(** ** Outcomes and the handler monad *)

Inductive outcome (A : Type) :=
  | Ret (a : A)
  | Raise (e : exn)
  | OutOfFuel.
Arguments Ret {A} _.
Arguments Raise {A} _.
Arguments OutOfFuel {A}.

Record World := {
  files : gmap string string;
  dirs : gset string;
  (** paths at which the file system refuses a write or a mkdir *)
  unwritable : gset string;
  (** the arguments of the [print] calls, oldest first *)
  stdout : list string
}.

Definition M (A : Type) : Type := World → outcome A * World.

Definition ret {A} (a : A) : M A := λ w, (Ret a, w).

Definition bind {A B} (k : A → M B) (m : M A) : M B :=
  λ w, match m w with
       | (Ret a, w') => k a w'
       | (Raise e, w') => (Raise e, w')
       | (OutOfFuel, w') => (OutOfFuel, w')
       end.

Definition raise {A} (e : exn) : M A := λ w, (Raise e, w).

Definition lift {A} (o : outcome A) : M A := λ w, (o, w).

#[global] Instance M_ret : MRet M := @ret.
#[global] Instance M_bind : MBind M := @bind.

(** [for x in l: body x] *)
Fixpoint for_each {A} (l : list A) (body : A → M unit) : M unit :=
  match l with
  | [] => ret tt
  | x :: l' => body x;; for_each l' body
  end.

(** *** Primitives *)

Definition with_files (f : gmap string string) (w : World) : World :=
  {| files := f; dirs := dirs w; unwritable := unwritable w; stdout := stdout w |}.

Definition with_dirs (d : gset string) (w : World) : World :=
  {| files := files w; dirs := d; unwritable := unwritable w; stdout := stdout w |}.

Definition with_stdout (o : list string) (w : World) : World :=
  {| files := files w; dirs := dirs w; unwritable := unwritable w; stdout := o |}.

Definition print (s : string) : M unit :=
  λ w, (Ret tt, with_stdout (stdout w ++ [s]) w).

Definition os_path_exists (p : string) : M bool :=
  λ w, (Ret (bool_decide (p ∈ dirs w) || bool_decide (is_Some (files w !! p))), w).

Definition os_makedirs (p : string) : M unit :=
  λ w, if bool_decide (p ∈ unwritable w) || bool_decide (p ∈ dirs w)
          || bool_decide (is_Some (files w !! p))
       then (Raise (OSError p), w)
       else (Ret tt, with_dirs ({[p]} ∪ dirs w) w).

(** [open(p, "w", encoding="utf-8")]: the file is created or truncated.
    A file is known by the text of its path: two texts are two files, so
    the model speaks of paths that name a file in one way only, an entry
    of a directory that exists. *)
Definition open_w (p : string) : M unit :=
  λ w, if bool_decide (p ∈ unwritable w) || bool_decide (p ∈ dirs w)
       then (Raise (OSError p), w)
       else (Ret tt, with_files (<[p := EmptyString]> (files w)) w).

(** [md_file.write(s)] on the file opened at [p].  The refusals of the
    file system are those of the directory creation and of the opening;
    a write that fails after the opening (a full disk) is not part of
    the model. *)
Definition file_write (p s : string) : M unit :=
  λ w, (Ret tt, with_files (<[p := default EmptyString (files w !! p) +:+ s]> (files w)) w).

(** ** The program *)

Section Program.

Context {T : TextLib}.

(** *** Listing the playlists *)

(** The [while True] loop of [get_all_playlists], one unit of fuel per
    iteration; [limit] is the local constant of the source. *)
Fixpoint playlists_loop (sp : Spotify) (limit fuel offset : nat)
    (playlists : list Playlist) : outcome (list Playlist) :=
  match fuel with
  | 0 => OutOfFuel
  | S fuel' =>
      match current_user_playlists sp limit offset with
      | Fail e => Raise e
      | Ok batch =>
          let playlists := playlists ++ items batch in
          if truthy (next batch)
          then playlists_loop sp limit fuel' (offset + limit) playlists
          else Ret playlists
      end
  end.

Definition get_all_playlists (sp : Spotify) (fuel : nat) : outcome (list Playlist) :=
  playlists_loop sp 50 fuel 0 [].

(** *** Resolving a name *)

(** [d[k] = v] on a dict, which keeps the order of first insertion. *)
Fixpoint dict_set (d : list (string * string)) (k v : string) : list (string * string) :=
  match d with
  | [] => [(k, v)]
  | (k', v') :: d' =>
      if String.eqb k' k then (k', v) :: d' else (k', v') :: dict_set d' k v
  end.

(** [unicodedata.normalize('NFKC', playlist['name'].strip())] *)
Definition read_playlist_name (playlist : Playlist) : string :=
  nfkc (strip (pl_name playlist)).

(** The test of the exact-match loop. *)
Definition exact_match (inputted_playlist_name : string) (playlist : Playlist) : bool :=
  String.eqb (lower (read_playlist_name playlist)) (lower inputted_playlist_name).

(** The dict comprehension of the fuzzy search. *)
Definition playlist_names (playlists : list Playlist) : list (string * string) :=
  fold_left (λ d p, dict_set d (read_playlist_name p) (pl_id p)) playlists [].

Definition get_playlist_id_by_name (sp : Spotify) (inputted_playlist_name : string)
    (fuzzy_threshold : nat) (fuel : nat) : M (option string) :=
  playlists ← lift (get_all_playlists sp fuel);
  match List.find (exact_match inputted_playlist_name) playlists with
  | Some playlist => mret (Some (pl_id playlist))
  | None =>
      let matches :=
        extractBests inputted_playlist_name (map fst (playlist_names playlists))
                     fuzzy_threshold 3 in
      match matches with
      | [] => mret None
      | _ =>
          print ("Exact playlist match not found for '" +:+ inputted_playlist_name
                 +:+ "'." +:+ nl +:+ "Did you mean:");;
          for_each matches (λ m, print ("- " +:+ m.1 +:+ "?"));;
          print nl;;
          mret None
      end
  end.

(** *** Fetching and formatting the tracks *)

(** [artist["name"] or 'Unknown Artist'] *)
Definition artist_text (artist : Artist) : string :=
  match artist_name artist with
  | Some (String c s) => String c s
  | _ => "Unknown Artist"
  end.

Definition artist_names (artists : list Artist) : string :=
  match artists with
  | [] => "Unknown Artist"
  | _ => join ", " (map artist_text artists)
  end.

Definition track_line (idx : nat) (track : Track) : string :=
  pretty idx +:+ ". _" +:+ track_name track +:+ "_ by "
    +:+ artist_names (track_artists track).

(** One turn of [for item in items], on the pair [(idx, track_entries)]. *)
Definition format_item (st : nat * list string) (item : Item) : nat * list string :=
  match item_track item with
  | None => st
  | Some track =>
      let idx := st.1 + 1 in
      (idx, st.2 ++ [track_line idx track])
  end.

Fixpoint tracks_loop (sp : Spotify) (playlist_id : string) (limit fuel offset idx : nat)
    (track_entries : list string) : outcome (list string) :=
  match fuel with
  | 0 => OutOfFuel
  | S fuel' =>
      match playlist_tracks sp playlist_id offset limit with
      | Fail e => Raise e
      | Ok results =>
          match items results with
          | [] => Ret track_entries
          | _ =>
              let st := fold_left format_item (items results) (idx, track_entries) in
              if truthy (next results)
              then tracks_loop sp playlist_id limit fuel' (offset + limit) st.1 st.2
              else Ret st.2
          end
      end
  end.

Definition get_playlist_tracks (sp : Spotify) (playlist_id : string) (fuel : nat)
    : outcome (list string) :=
  tracks_loop sp playlist_id 100 fuel 0 0 [].

(** *** Writing the archive *)

Definition output_filename (playlist_name : string) : string :=
  "archive" +:+ "/" +:+ lower (replace_space playlist_name) +:+ "_playlist_archive.md".

Definition save_playlist_to_markdown (playlist_name : string) (tracks : list string)
    : M string :=
  let directory := "archive" in
  present ← os_path_exists directory;
  (if present : bool then mret tt else os_makedirs directory);;
  let md_file := output_filename playlist_name in
  open_w md_file;;
  file_write md_file ("# " +:+ playlist_name +:+ " Song Archive" +:+ nl +:+ nl);;
  for_each tracks (λ line, file_write md_file (line +:+ nl));;
  mret md_file.

(** *** Handlers *)

Definition handle_archive_playlist (sp : Spotify) (user_input : string) (fuel : nat)
    : M unit :=
  match user_input with
  | EmptyString =>
      raise (PlaylistArchiverError
               "Please enter a valid playlist name after archive-playlist.")
  | _ =>
      let playlist_name := user_input in
      playlist_id ← get_playlist_id_by_name sp playlist_name 80 fuel;
      if truthy playlist_id then
        tracks ← lift (get_playlist_tracks sp (default EmptyString playlist_id) fuel);
        playlist_filepath ← save_playlist_to_markdown playlist_name tracks;
        print ("Playlist '" +:+ playlist_name
               +:+ "' has been archived successfully to " +:+ playlist_filepath)
      else
        raise (PlaylistArchiverError
                 ("Playlist '" +:+ playlist_name +:+ "' not found. Please try again."))
  end.

(** The body of [for playlist_name in playlist_names] in
    [handle_archive_batch]. *)
Definition archive_batch_item (sp : Spotify) (fuel : nat) (playlist_name : string)
    : M unit :=
  print ("Archiving: " +:+ playlist_name +:+ " ...");;
  playlist_id ← get_playlist_id_by_name sp playlist_name 80 fuel;
  if truthy playlist_id then
    tracks ← lift (get_playlist_tracks sp (default EmptyString playlist_id) fuel);
    save_playlist_to_markdown playlist_name tracks;;
    print ("Successfully archived '" +:+ playlist_name +:+ "'" +:+ nl)
  else
    print ("Playlist '" +:+ playlist_name +:+ "' not found. Skipping ..." +:+ nl).

(** [handle_archive_batch] from the point where the names have been
    read from the batch file (its stripped, non-blank lines). *)
Definition handle_archive_batch (sp : Spotify) (playlist_names : list string)
    (fuel : nat) : M unit :=
  match playlist_names with
  | [] => raise (PlaylistArchiverError "No playlist names found in the batch file.")
  | _ => for_each playlist_names (archive_batch_item sp fuel)
  end.

(** The body of the loop of [handle_archive_all]. *)
Definition archive_all_item (sp : Spotify) (fuel : nat) (playlist : Playlist) : M unit :=
  let playlist_name := pl_name playlist in
  let playlist_id := pl_id playlist in
  tracks ← lift (get_playlist_tracks sp playlist_id fuel);
  save_playlist_to_markdown playlist_name tracks;;
  mret tt.

Definition handle_archive_all (sp : Spotify) (fuel : nat) : M unit :=
  playlists ← lift (get_all_playlists sp fuel);
  match playlists with
  | [] => print "No playlists found."
  | _ =>
      for_each playlists (archive_all_item sp fuel);;
      print ("Successfully archived " +:+ pretty (length playlists)
             +:+ " playlists." +:+ nl)
  end.

End Program.

(** ** A remote that serves a fixed listing in pages *)

(** The page of [listing] at [offset]: at most [limit] items, and a next
    link exactly when items remain after them. *)
Definition page_of {A} (listing : list A) (limit offset : nat) : Page A :=
  {| items := take limit (drop offset listing);
     next := if (offset + limit <? length listing)%nat
             then Some "https://api.spotify.com/v1/next" else None |}.

Definition serve (playlists : list Playlist) (tracks : string → list Item) : Spotify :=
  {| current_user_playlists := λ limit offset, Ok (page_of playlists limit offset);
     playlist_tracks := λ playlist_id offset limit,
                          Ok (page_of (tracks playlist_id) limit offset) |}.

Definition empty_world : World :=
  {| files := ∅; dirs := ∅; unwritable := ∅; stdout := [] |}.

Definition no_scorer : string → list string → nat → nat → list (string * nat) :=
  λ _ _ _ _, [].


(** A remote whose every page is empty and yet announces a next page. *)
Definition stuck_remote : Spotify :=
  let page A : Page A :=
    {| items := []; next := Some "https://api.spotify.com/v1/next" |} in
  {| current_user_playlists := λ _ _, Ok (page Playlist);
     playlist_tracks := λ _ _ _, Ok (page Item) |}.

(** ** Notions used to state the properties *)

Section Notions.

Context {T : TextLib}.

(** The [for] loop over one page, started from [idx = 0] and no entry. *)
Definition format_items (items : list Item) : list string :=
  (fold_left format_item items (0, [])).2.

(** Number of null entries of a raw track sequence. *)
Definition null_entries (items : list Item) : nat :=
  length (List.filter (λ it, match item_track it with None => true | Some _ => false end)
                      items).

(** What the fuzzy branch of the resolver prints. *)
Definition suggestion_lines (inputted_playlist_name : string)
    (playlists : list Playlist) (fuzzy_threshold : nat) : list string :=
  match extractBests inputted_playlist_name (map fst (playlist_names playlists))
                     fuzzy_threshold 3 with
  | [] => []
  | ms => ("Exact playlist match not found for '" +:+ inputted_playlist_name
           +:+ "'." +:+ nl +:+ "Did you mean:")
          :: map (λ m, "- " +:+ m.1 +:+ "?") ms ++ [nl]
  end.

(** The text of the lines, each ended by a newline. *)
Definition lines_text (tracks : list string) : string :=
  foldr (λ line rest, line +:+ nl +:+ rest) EmptyString tracks.

(** The document of an archive: heading, blank line, the lines. *)
Definition md_content (playlist_name : string) (tracks : list string) : string :=
  "# " +:+ playlist_name +:+ " Song Archive" +:+ nl +:+ nl +:+ lines_text tracks.

(** The file system takes the archive directory and the file of the
    playlist. *)
(** The path separator occurs in [s]. *)
Fixpoint has_path_separator (s : string) : bool :=
  match s with
  | EmptyString => false
  | String c s' => Ascii.eqb c "/"%char || has_path_separator s'
  end.

(** The name of the archive file inside the directory. *)
Definition archive_entry (playlist_name : string) : string :=
  lower (replace_space playlist_name) +:+ "_playlist_archive.md".

(** The archive of [playlist_name] is an entry of the directory [archive]
    itself: the name brings no path separator into its path. *)
Definition plain_entry (playlist_name : string) : Prop :=
  has_path_separator (lower (replace_space playlist_name)) = false.

Definition can_archive (w : World) (playlist_name : string) : Prop :=
  ("archive" ∉ unwritable w)
  ∧ (output_filename playlist_name ∉ unwritable w)
  ∧ (output_filename playlist_name ∉ dirs w).

Definition archiving_message (playlist_name : string) : string :=
  "Archiving: " +:+ playlist_name +:+ " ...".

Definition skip_message (playlist_name : string) : string :=
  "Playlist '" +:+ playlist_name +:+ "' not found. Skipping ..." +:+ nl.

Definition success_message (playlist_name : string) : string :=
  "Successfully archived '" +:+ playlist_name +:+ "'" +:+ nl.

(** The playlist a name resolves to: the first exact match of the
    listing, when its id is not empty. *)
Definition resolved (playlists : list Playlist) (playlist_name : string)
    : option Playlist :=
  match List.find (exact_match playlist_name) playlists with
  | Some playlist => if truthy (Some (pl_id playlist)) then Some playlist else None
  | None => None
  end.

(** What the resolver prints for a name, and the skip report, when the
    name does not resolve. *)
Definition skip_lines (playlists : list Playlist) (playlist_name : string) : list string :=
  match List.find (exact_match playlist_name) playlists with
  | Some _ => []
  | None => suggestion_lines playlist_name playlists 80
  end ++ [skip_message playlist_name].

End Notions.

(** ** The batch file *)

(** [s.endswith(suffix)] *)
Fixpoint endswith (s suffix : string) : bool :=
  String.eqb s suffix
  || match s with
     | EmptyString => false
     | String _ s' => endswith s' suffix
     end.

Definition is_line_break (c : ascii) : bool :=
  Ascii.eqb c "010"%char || Ascii.eqb c "013"%char.

(** No character of [s] ends a line. *)
Fixpoint no_line_break (s : string) : bool :=
  match s with
  | EmptyString => true
  | String c s' => negb (is_line_break c) && no_line_break s'
  end.

(** The lines of a file read in text mode, as [for line in f] yields
    them: a line ends at a line feed, a carriage return, or a carriage
    return followed by a line feed, each read as one line feed; the last
    line may have none. *)
Fixpoint text_lines (text : string) : list string :=
  match text with
  | EmptyString => []
  | String c rest =>
      if Ascii.eqb c "010"%char then nl :: text_lines rest
      else if Ascii.eqb c "013"%char then
        match rest with
        | String c' rest' =>
            if Ascii.eqb c' "010"%char then nl :: text_lines rest'
            else nl :: text_lines rest
        | EmptyString => [nl]
        end
      else
        match text_lines rest with
        | [] => [String c EmptyString]
        | line :: lines => String c line :: lines
        end
  end.

(** [open(p, 'r', encoding='utf-8')] and the reading of the whole text. *)
Definition read_text (p : string) : M string :=
  λ w, match files w !! p with
       | Some text => (Ret text, w)
       | None => (Raise (OSError p), w)
       end.

Section BatchFile.

Context {T : TextLib}.

(** [[line.strip() for line in f if line.strip()]] *)
Definition batch_names (text : string) : list string :=
  concat (map (λ line, match strip line with
                       | EmptyString => []
                       | name => [name]
                       end) (text_lines text)).

(** [handle_archive_batch] from its first line: the checks on the path,
    the reading of the names, and then the part modelled by
    [handle_archive_batch]. *)
Definition handle_archive_batch_path (sp : Spotify) (user_input : string) (fuel : nat)
    : M unit :=
  if truthy (Some user_input) && endswith user_input ".batch" then
    let batch_filepath := user_input in
    present ← os_path_exists batch_filepath;
    if present : bool then
      text ← read_text batch_filepath;
      handle_archive_batch sp (batch_names text) fuel
    else
      raise (PlaylistArchiverError
               ("Batch file '" +:+ batch_filepath +:+ "' does not exist. Please try again."))
  else
    print "Please enter a valid playlist batch filepath after archive-batch.";;
    raise (PlaylistArchiverError "Invalid batch file. Please try again.").

End BatchFile.

(** ** The console and the command loop of [archify.py] *)

(** What the console is given: the arguments of [console.print] (a
    string or a [Markdown] with its style, a [Columns] with its cells,
    nothing at all) and the prompt of [console.input]. *)
Inductive renderable :=
  | Text (s : string) (style : option string)
  | Markdown (s : string) (style : option string)
  | Columns (cells : list string)
  | Blank
  | Input (prompt : string).

(** The library calls of the host that the Unicode tables, the
    operating system, the interpreter or the console library decide. *)
Class Host := {
  (** [s.split()] *)
  split : string → list string;
  (** [s.title()] *)
  title : string → string;
  (** [os.listdir(p)]: the entries in the order the system reports them,
      or nothing when it refuses. *)
  listdir : World → string → option (list string);
  (** [str(e)] *)
  exn_text : exn → string;
  (** [traceback.format_exc()] while [e] is handled *)
  format_exc : exn → string;
  (** Whether the console, asked to print the string [s], raises
      [MarkupError]: it reads [s] as markup, and a closing tag that
      closes nothing is an error. *)
  markup_error : string → bool
}.

(** [s.replace(old, new)] for a non-empty [old]: the occurrences of
    [old] are replaced from the left, without overlap; [skip] counts the
    characters of an occurrence still to pass over. *)
Fixpoint replace_go (old new : string) (skip : nat) (s : string) : string :=
  match s with
  | EmptyString => EmptyString
  | String c s' =>
      match skip with
      | S skip' => replace_go old new skip' s'
      | O => if String.prefix old s
             then new +:+ replace_go old new (String.length old - 1) s'
             else String c (replace_go old new 0 s')
      end
  end.

Definition replace (old new s : string) : string := replace_go old new 0 s.

(** A handler is called with the console and the argument; it gives its
    outcome, the world and the console as it leaves them, also when it
    raises. *)
Definition handler : Type :=
  list renderable → string → World → outcome unit * World * list renderable.

(** A handler that puts nothing on the console before it can raise, from
    a computation that returns the console. *)
Definition returning (h : list renderable → string → M (list renderable)) : handler :=
  λ shown user_input w,
    match h shown user_input w with
    | (Ret shown', w') => (Ret tt, w', shown')
    | (Raise e, w') => (Raise e, w', shown)
    | (OutOfFuel, w') => (OutOfFuel, w', shown)
    end.

(** An entry of the command table: leave the process, or run a handler. *)
Inductive command :=
  | Quit (code : nat)
  | Run (h : handler).

(** How the command loop ends: [exit(code)], no input left
    ([EOFError]), an [IndexError] on [parts[0]], a [MarkupError] that a
    [console.print] of the loop itself raises, or a handler that has not
    returned within its fuel. *)
Inductive loop_end :=
  | Exited (code : nat)
  | EndOfInput
  | NoCommandWord
  | MarkupFailure
  | Hung.

Record Session := { world : World; console : list renderable }.

Definition COMMAND_DESCRIPTIONS : string :=
  nl +:+ "- `show-playlists` — Displays your Spotify playlists" +:+ nl
  +:+ "- `archive <playlist_name>` — Save a playlist as Markdown to archive/ (enter playlist name as plain text)" +:+ nl
  +:+ "- `archive-batch <batch_filepath>` — Archive multiple playlists from a .batch file (each line is a playlist name in plain text)" +:+ nl
  +:+ "- `archive-all` — Archive all your playlists" +:+ nl
  +:+ "- `view-archive` — View already archived playlists" +:+ nl
  +:+ "- `help` — Offers a reminder of the available commands" +:+ nl
  +:+ "- `q` — Quit the playlist archiver" +:+ nl.

Section Commands.

Context {T : TextLib} {H : Host}.

(** [console.print(s)] for the strings of [texts] in turn: each is put
    on the console, up to the first one that the console cannot render;
    the result tells whether all were printed. *)
Fixpoint console_print_all (texts : list (string * option string))
    (shown : list renderable) : bool * list renderable :=
  match texts with
  | [] => (true, shown)
  | (s, style) :: texts' =>
      if markup_error s then (false, shown)
      else console_print_all texts' (shown ++ [Text s style])
  end.

(** The heading goes on the console first; the cells of the columns are
    strings, which the console reads as markup when it prints the
    columns, all of them before it shows any. *)
Definition handle_show_playlists (sp : Spotify) (fuel : nat) : handler :=
  λ shown user_input w,
    match get_all_playlists sp fuel with
    | Ret playlists =>
        let shown_names := map pl_name playlists in
        let headed := shown ++ [Markdown "# Available Playlists" (Some "white")] in
        match List.find markup_error shown_names with
        | Some cell => (Raise (MarkupError cell), w, headed)
        | None => (Ret tt, w, headed ++ [Columns shown_names])
        end
    | Raise e => (Raise e, w, shown)
    | OutOfFuel => (OutOfFuel, w, shown)
    end.

(** [os.listdir(p)] *)
Definition os_listdir (p : string) : M (list string) :=
  λ w, match listdir w p with
       | Some entries => (Ret entries, w)
       | None => (Raise (OSError p), w)
       end.

(** The name shown for an archived file. *)
Definition display_name (filename : string) : string :=
  title (replace "_" " " (replace "_playlist_archive.md" EmptyString filename)).

(** The cells are made from names of directory entries, which hold no
    [/] and so no closing tag: the console renders them. *)
Definition handle_view_archive
    : list renderable → string → M (list renderable) :=
  λ console user_input,
    present ← os_path_exists "archive";
    if present : bool then
      entries ← os_listdir "archive";
      let archived_playlists :=
        List.filter (λ filename, endswith filename "playlist_archive.md") entries in
      let display_names := map display_name archived_playlists in
      mret (console ++ [Markdown "# Archived Playlists" (Some "white");
                        Columns display_names])
    else
      print "No archived playlists found";;
      mret console.

(** The table [COMMANDS]. *)
Definition COMMANDS (sp : Spotify) (fuel : nat) (name : string) : option command :=
  if String.eqb name "q" then Some (Quit 0)
  else if String.eqb name "show-playlists" then Some (Run (handle_show_playlists sp fuel))
  else if String.eqb name "archive" then
    Some (Run (returning (λ console user_input,
                            handle_archive_playlist sp user_input fuel;; mret console)))
  else if String.eqb name "archive-batch" then
    Some (Run (returning (λ console user_input,
                            handle_archive_batch_path sp user_input fuel;; mret console)))
  else if String.eqb name "view-archive" then Some (Run (returning handle_view_archive))
  else if String.eqb name "archive-all" then
    Some (Run (returning (λ console user_input,
                            handle_archive_all sp fuel;; mret console)))
  else if String.eqb name "help" then
    Some (Run (returning (λ console user_input,
                            mret (console ++ [Markdown COMMAND_DESCRIPTIONS None; Blank]))))
  else None.

(** What the loop prints for an exception that a handler raised. *)
Definition error_texts (e : exn) : list (string * option string) :=
  match e with
  | PlaylistArchiverError msg =>
      [("[bold yellow]Warning:[/bold yellow] " +:+ msg, None)]
  | _ =>
      [("[bold red]Unexpected error:[/bold red] " +:+ exn_text e, None);
       ("[dim]" +:+ format_exc e +:+ "[/dim]", None)]
  end.

(** What the loop prints for a first word that is no command. *)
Definition unknown_text (cmd : string) : string * option string :=
  ("Unknown command: " +:+ cmd +:+ ". Please try again.", Some "bold red").

(** One turn of the [while True] loop of [get_user_input] on the line
    that [console.input] returns: the end of the loop, if this turn ends
    it, and the session after the turn.  The prints of the loop stand
    outside the [try] or inside an [except] clause, so a [MarkupError]
    of one of them ends the loop. *)
Definition get_user_input_turn (commands : string → option command) (line : string)
    (s : Session) : option loop_end * Session :=
  let asked := console s ++ [Input "[bold green]INPUT:[/bold green] "] in
  let user_input := strip line in
  match user_input with
  | EmptyString =>
      (None, {| world := with_stdout (stdout (world s) ++ ["Please enter a command"])
                                     (world s);
                console := asked |})
  | _ =>
      let parts := split user_input in
      match parts with
      | [] => (Some NoCommandWord, {| world := world s; console := asked |})
      | cmd :: rest =>
          let argument :=
            match rest with
            | [] => EmptyString
            | _ => join " " rest
            end in
          match commands cmd with
          | Some (Quit code) => (Some (Exited code), {| world := world s; console := asked |})
          | Some (Run h) =>
              match h asked argument (world s) with
              | (Ret _, w', shown) => (None, {| world := w'; console := shown |})
              | (Raise e, w', shown) =>
                  match console_print_all (error_texts e) shown with
                  | (true, shown') => (None, {| world := w'; console := shown' |})
                  | (false, shown') =>
                      (Some MarkupFailure, {| world := w'; console := shown' |})
                  end
              | (OutOfFuel, w', shown) => (Some Hung, {| world := w'; console := shown |})
              end
          | None =>
              match console_print_all [unknown_text cmd] asked with
              | (true, shown') => (None, {| world := world s; console := shown' |})
              | (false, shown') =>
                  (Some MarkupFailure, {| world := world s; console := shown' |})
              end
          end
      end
  end.

(** [get_user_input] on the lines that are typed, in order. *)
Fixpoint get_user_input (commands : string → option command) (inputs : list string)
    (s : Session) : loop_end * Session :=
  match inputs with
  | [] => (EndOfInput, {| world := world s;
                          console := console s ++ [Input "[bold green]INPUT:[/bold green] "] |})
  | line :: inputs' =>
      match get_user_input_turn commands line s with
      | (Some e, s') => (e, s')
      | (None, s') => get_user_input commands inputs' s'
      end
  end.

End Commands.

(** The host on ASCII text: words are separated by white space; an
    upper-case letter opens each run of letters and the other letters are
    lower-case; markup is read for texts without backslashes, whose tags
    have no parameters and name a style alike where they open and close;
    the directory listing and the texts of exceptions stay parameters. *)
Module Ascii7Host.

Fixpoint split_go (cur : option string) (s : string) : list string :=
  match s with
  | EmptyString => match cur with Some w => [String.rev w] | None => [] end
  | String c s' =>
      if Ascii7.is_space c
      then match cur with
           | Some w => String.rev w :: split_go None s'
           | None => split_go None s'
           end
      else split_go (Some (String c (default EmptyString cur))) s'
  end.

Definition split (s : string) : list string := split_go None s.


Definition is_letter (c : ascii) : bool :=
  let n := Ascii.nat_of_ascii c in
  ((65 <=? n)%nat && (n <=? 90)%nat) || ((97 <=? n)%nat && (n <=? 122)%nat).

Definition upper_char (c : ascii) : ascii :=
  let n := Ascii.nat_of_ascii c in
  if (97 <=? n)%nat && (n <=? 122)%nat then Ascii.ascii_of_nat (n - 32) else c.

Fixpoint title_go (inside : bool) (s : string) : string :=
  match s with
  | EmptyString => EmptyString
  | String c s' =>
      String (if inside then Ascii7.lower_char c else upper_char c)
             (title_go (is_letter c) s')
  end.

Definition title (s : string) : string := title_go false s.

(** A tag opens with a bracket followed by a lower-case letter or one of
    [#], [/], [@]. *)
Definition opens_tag (c : ascii) : bool :=
  let n := Ascii.nat_of_ascii c in
  ((97 <=? n)%nat && (n <=? 122)%nat)
  || Ascii.eqb c "#"%char || Ascii.eqb c "/"%char || Ascii.eqb c "@"%char.

(** The open tags without the innermost one named [name]; nothing when
    no open tag has that name. *)
Fixpoint close_named (name : string) (open : list string) : option (list string) :=
  match open with
  | [] => None
  | tag :: open' =>
      if String.eqb tag name then Some open'
      else option_map (cons tag) (close_named name open')
  end.

(** The open tags after the tag [tag] (innermost first); nothing when
    [tag] closes and has nothing to close. *)
Definition apply_tag (tag : string) (open : list string) : option (list string) :=
  match tag with
  | String "/" name =>
      match Ascii7.strip name with
      | EmptyString => match open with [] => None | _ :: open' => Some open' end
      | name' => close_named name' open
      end
  | _ => Some (tag :: open)
  end.

(** Reading [s] as markup: [cur] is the text read since the last opening
    bracket, reversed, when a tag may be under way. *)
Fixpoint markup_go (cur : option string) (open : list string) (s : string) : bool :=
  match s with
  | EmptyString => false
  | String c s' =>
      if Ascii.eqb c "["%char then markup_go (Some EmptyString) open s'
      else
        match cur with
        | None => markup_go None open s'
        | Some EmptyString =>
            if opens_tag c then markup_go (Some (String c EmptyString)) open s'
            else markup_go None open s'
        | Some read =>
            if Ascii.eqb c "]"%char then
              match apply_tag (String.rev read) open with
              | Some open' => markup_go None open' s'
              | None => true
              end
            else markup_go (Some (String c read)) open s'
        end
  end.

Definition markup_error (s : string) : bool := markup_go None [] s.

End Ascii7Host.

Definition ascii_host (entries : World → string → option (list string))
    (text trace : exn → string) : Host :=
  {| split := Ascii7Host.split;
     title := Ascii7Host.title;
     listdir := entries;
     exn_text := text;
     format_exc := trace;
     markup_error := Ascii7Host.markup_error |}.

(** ** Notions for whole runs of the handlers *)

Section RunNotions.

Context {T : TextLib}.

(** The lines that [get_playlist_tracks] returns for a playlist. *)
Definition fetched_lines (sp : Spotify) (fuel : nat) (playlist_id : string) : list string :=
  match get_playlist_tracks sp playlist_id fuel with
  | Ret tracks => tracks
  | _ => []
  end.

(** What one turn of the named batch prints: the announcement, then the
    success message or the suggestions and the skip report. *)
Definition turn_lines (playlists : list Playlist) (playlist_name : string) : list string :=
  archiving_message playlist_name
  :: match resolved playlists playlist_name with
     | Some _ => [success_message playlist_name]
     | None => skip_lines playlists playlist_name
     end.

(** What one turn of the named batch does to the files. *)
Definition batch_turn_files (sp : Spotify) (fuel : nat) (playlists : list Playlist)
    (f : gmap string string) (playlist_name : string) : gmap string string :=
  match resolved playlists playlist_name with
  | Some playlist =>
      <[output_filename playlist_name :=
          md_content playlist_name (fetched_lines sp fuel (pl_id playlist))]> f
  | None => f
  end.

(** What one turn of the full archive does to the files. *)
Definition all_turn_files (sp : Spotify) (fuel : nat)
    (f : gmap string string) (playlist : Playlist) : gmap string string :=
  <[output_filename (pl_name playlist) :=
      md_content (pl_name playlist) (fetched_lines sp fuel (pl_id playlist))]> f.

(** The last line of [handle_archive_all]. *)
Definition archive_all_report (playlists : list Playlist) : string :=
  match playlists with
  | [] => "No playlists found."
  | _ => "Successfully archived " +:+ pretty (length playlists) +:+ " playlists." +:+ nl
  end.

End RunNotions.

(** ** Scenarios *)

(** The three raw tracks of the round-trip scenario. *)
Definition round_trip_tracks : list Item :=
  [ {| item_track := Some {| track_name := "Song A";
                             track_artists := [ {| artist_name := Some "Artist X" |} ] |} |};
    {| item_track := None |};
    {| item_track := Some {| track_name := "Song B"; track_artists := [] |} |} ].

(** A listing of three playlists. *)
Definition three_playlists : list Playlist :=
  [ {| pl_id := "id-a"; pl_name := "Alpha" |};
    {| pl_id := "id-b"; pl_name := "Beta" |};
    {| pl_id := "id-c"; pl_name := "Gamma" |} ].

(** The text library on ASCII without any fuzzy candidate. *)
Definition plain_text : TextLib := ascii_text no_scorer.

(** The text library on ASCII with a scorer that always suggests "Rock". *)
Definition rock_text : TextLib := ascii_text (λ _ _ _ _, [("Rock", 100)]).

(** Two playlists whose names are equal once normalized, behind a third. *)
Definition rock_listing : list Playlist :=
  [ {| pl_id := "p0"; pl_name := "Jazz" |};
    {| pl_id := "p1"; pl_name := " rock " |};
    {| pl_id := "p2"; pl_name := "ROCK" |} ].

(** A remote that lists [three_playlists] and fails to serve the tracks of
    the second one. *)
Definition failing_remote : Spotify :=
  {| current_user_playlists := λ limit offset, Ok (page_of three_playlists limit offset);
     playlist_tracks := λ playlist_id offset limit,
       if String.eqb playlist_id "id-b"
       then Fail (SpotifyException "503 Service Unavailable")
       else Ok (page_of round_trip_tracks limit offset) |}.

(** A file system that refuses the archive of the second playlist. *)
Definition locked_world : World :=
  {| files := ∅; dirs := ∅; unwritable := {[ "archive/beta_playlist_archive.md" ]};
     stdout := [] |}.

(** The remote of the named-batch scenario: one playlist, "RealList". *)
Definition real_list_remote : Spotify :=
  serve [ {| pl_id := "id-real"; pl_name := "RealList" |} ] (λ _, round_trip_tracks).

(** A remote that serves one page of playlists announcing a next page and
    fails on every later request; its track pages are those of
    [round_trip_tracks] cut in two, with an empty third page. *)
Definition flaky_remote : Spotify :=
  {| current_user_playlists := λ limit offset,
       if (offset =? 0)%nat
       then Ok {| items := three_playlists;
                  next := Some "https://api.spotify.com/v1/next" |}
       else Fail (SpotifyException "429 Too Many Requests");
     playlist_tracks := λ playlist_id offset limit,
       if (offset =? 0)%nat
       then Ok {| items := take 2 round_trip_tracks;
                  next := Some "https://api.spotify.com/v1/next" |}
       else if (offset =? 100)%nat
       then Ok {| items := drop 2 round_trip_tracks;
                  next := Some "https://api.spotify.com/v1/next" |}
       else Ok {| items := []; next := Some "https://api.spotify.com/v1/next" |} |}.

(** A host on ASCII text whose archive directory lists one archive and
    one other file. *)
Definition plain_host : Host :=
  ascii_host (λ _ _, Some ["my_list_playlist_archive.md"; "notes.txt"])
             (λ _, "error") (λ _, "traceback").

(** The session before the first line is typed. *)
Definition fresh_session : Session := {| world := empty_world; console := [] |}.

(** ** The pagination loops *)

Section Pagination.

Context {T : TextLib}.

Lemma fold_format_item (items : list Item) (idx : nat) (entries : list string) :
  fold_left format_item items (idx, entries)
  = (idx + length (omap item_track items),
     entries ++ imap (λ i track, track_line (idx + 1 + i) track) (omap item_track items)).
Proof.
  revert idx entries.
  induction items as [|[[track|]] items IH]; intros idx entries; simpl.
  - by rewrite Nat.add_0_r, app_nil_r.
  - unfold format_item at 2. simpl. rewrite IH. unfold omap.
    f_equal; [lia|].
    rewrite <- app_assoc. simpl. do 2 f_equal.
    + f_equal. lia.
    + apply imap_ext. intros i x _. simpl. f_equal. lia.
  - unfold format_item at 2. simpl. apply IH.
Qed.

Lemma format_items_imap (items : list Item) :
  format_items items = imap (λ i track, track_line (S i) track) (omap item_track items).
Proof. unfold format_items. by rewrite fold_format_item. Qed.

Lemma omap_null_entries (items : list Item) :
  length (omap item_track items) + null_entries items = length items.
Proof.
  unfold null_entries, omap.
  induction items as [|[[track|]] items IH]; simpl in *; lia.
Qed.

Lemma take_nil_drop {A} (l : list A) (n : nat) : 0 < n → take n l = [] → l = [].
Proof. destruct n, l; simpl; intros; first [lia | done]. Qed.

Lemma page_next_truthy {A} (listing : list A) (limit offset : nat) :
  truthy (next (page_of listing limit offset)) = (offset + limit <? length listing)%nat.
Proof. unfold page_of; simpl. by destruct (_ <? _)%nat. Qed.

Lemma playlists_loop_S (sp : Spotify) (limit fuel offset : nat) acc :
  playlists_loop sp limit (S fuel) offset acc
  = match current_user_playlists sp limit offset with
    | Fail e => Raise e
    | Ok batch =>
        if truthy (next batch)
        then playlists_loop sp limit fuel (offset + limit) (acc ++ items batch)
        else Ret (acc ++ items batch)
    end.
Proof. reflexivity. Qed.

Lemma tracks_loop_S (sp : Spotify) (pid : string) (limit fuel offset idx : nat) acc :
  tracks_loop sp pid limit (S fuel) offset idx acc
  = match playlist_tracks sp pid offset limit with
    | Fail e => Raise e
    | Ok results =>
        match items results with
        | [] => Ret acc
        | _ =>
            let st := fold_left format_item (items results) (idx, acc) in
            if truthy (next results)
            then tracks_loop sp pid limit fuel (offset + limit) st.1 st.2
            else Ret st.2
        end
    end.
Proof. reflexivity. Qed.

(** On a paged listing the playlist loop returns what it had plus the
    rest of the listing. *)
Lemma playlists_loop_paged (listing : list Playlist) tracks (limit : nat) :
  0 < limit →
  ∀ fuel offset acc,
    0 < fuel → length listing < offset + fuel * limit →
    playlists_loop (serve listing tracks) limit fuel offset acc
    = Ret (acc ++ drop offset listing).
Proof.
  intros Hlimit fuel.
  induction fuel as [|fuel IH]; intros offset acc Hfuel Hlen; [lia|].
  rewrite playlists_loop_S. cbn [serve current_user_playlists].
  rewrite page_next_truthy. cbn [items page_of].
  destruct (Nat.ltb_spec (offset + limit) (length listing)) as [Hlt|Hge].
  - rewrite IH.
    + by rewrite <- app_assoc, <- (drop_drop listing limit offset), take_drop.
    + destruct fuel; simpl in *; lia.
    + simpl in Hlen. lia.
  - rewrite take_ge; [done|]. rewrite length_drop. lia.
Qed.

(** The track loop formats the rest of the listing, carrying [idx] on. *)
Lemma tracks_loop_paged playlists (tracks : string → list Item) (pid : string)
    (limit : nat) :
  0 < limit →
  ∀ fuel offset idx acc,
    0 < fuel → length (tracks pid) < offset + fuel * limit →
    tracks_loop (serve playlists tracks) pid limit fuel offset idx acc
    = Ret (fold_left format_item (drop offset (tracks pid)) (idx, acc)).2.
Proof.
  intros Hlimit fuel.
  induction fuel as [|fuel IH]; intros offset idx acc Hfuel Hlen; [lia|].
  rewrite tracks_loop_S. cbn [serve playlist_tracks].
  rewrite page_next_truthy. cbn [items page_of].
  destruct (take limit (drop offset (tracks pid))) as [|it its] eqn:Htake.
  - apply take_nil_drop in Htake; [|done]. by rewrite Htake.
  - rewrite <- Htake.
    destruct (Nat.ltb_spec (offset + limit) (length (tracks pid))) as [Hlt|Hge].
    + rewrite IH.
      * rewrite <- surjective_pairing, <- fold_left_app.
        by rewrite <- (drop_drop (tracks pid) limit offset), take_drop.
      * destruct fuel; simpl in *; lia.
      * simpl in Hlen. lia.
    + rewrite take_ge; [done|]. rewrite length_drop. lia.
Qed.

(** The playlist loop on any remote: the pages at offsets [0], [limit],
    [2 * limit], ... are fetched up to the first one without a next
    link, and their items are put together in that order. *)
Lemma playlists_loop_trace (sp : Spotify) (limit : nat) (pages : nat → Page Playlist) :
  ∀ k offset acc,
    (∀ i, i ≤ k → current_user_playlists sp limit (offset + i * limit) = Ok (pages i)) →
    (∀ i, i < k → truthy (next (pages i)) = true) →
    truthy (next (pages k)) = false →
    playlists_loop sp limit (S k) offset acc
    = Ret (acc ++ concat (map (λ i, items (pages i)) (seq 0 (S k)))).
Proof.
  intros k. revert pages.
  induction k as [|k IH]; intros pages offset acc Hfetch Hmore Hlast.
  - rewrite playlists_loop_S. specialize (Hfetch 0). rewrite Nat.add_0_r in Hfetch.
    rewrite Hfetch by lia. rewrite Hlast. simpl. by rewrite app_nil_r.
  - rewrite playlists_loop_S. pose proof (Hfetch 0) as H0. rewrite Nat.add_0_r in H0.
    rewrite H0 by lia. rewrite (Hmore 0) by lia.
    rewrite (IH (λ i, pages (S i))).
    + rewrite <- app_assoc. f_equal.
      change (seq 0 (S (S k))) with (0 :: seq 1 (S k)).
      by rewrite <- seq_shift, map_cons, map_map.
    + intros i Hi. rewrite <- Hfetch by lia. f_equal. simpl. lia.
    + intros i Hi. apply Hmore. lia.
    + done.
Qed.

(** The track loop leaves at an empty page, whatever its next link. *)
Lemma tracks_loop_empty_page (sp : Spotify) (pid : string) (limit : nat) :
  ∀ k fuel offset idx acc page,
    playlist_tracks sp pid (offset + k * limit) limit = Ok page →
    items page = [] →
    k < fuel →
    tracks_loop sp pid limit fuel offset idx acc ≠ OutOfFuel.
Proof.
  intros k.
  induction k as [|k IH]; intros fuel offset idx acc page Hpage Hitems Hfuel;
    (destruct fuel as [|fuel]; [lia|]); rewrite tracks_loop_S.
  - simpl in Hpage. rewrite Nat.add_0_r in Hpage. by rewrite Hpage, Hitems.
  - destruct (playlist_tracks sp pid offset limit) as [results|e]; [|done].
    destruct (items results); [done|].
    destruct (truthy (next results)); [|done].
    apply (IH _ _ _ _ page); [|done|lia].
    rewrite <- Hpage. f_equal. simpl. lia.
Qed.

(** The playlist loop never leaves on the stuck remote. *)
Lemma playlists_loop_stuck (limit fuel offset : nat) (acc : list Playlist) :
  playlists_loop stuck_remote limit fuel offset acc = OutOfFuel.
Proof.
  revert offset acc. induction fuel as [|fuel IH]; intros offset acc; [done|].
  rewrite playlists_loop_S. apply IH.
Qed.

End Pagination.

(** ** Running the handlers *)

Section Runs.

Context {T : TextLib}.

Lemma append_cons (c : ascii) (s t : string) : String c s +:+ t = String c (s +:+ t).
Proof. reflexivity. Qed.

Lemma append_empty_r (s : string) : s +:+ EmptyString = s.
Proof. induction s as [|c s IH]; [done|by rewrite append_cons, IH]. Qed.

Lemma append_assoc (s1 s2 s3 : string) : (s1 +:+ s2) +:+ s3 = s1 +:+ s2 +:+ s3.
Proof. induction s1 as [|c s1 IH]; [done|by rewrite !append_cons, IH]. Qed.

Lemma world_eta (w : World) :
  {| files := files w; dirs := dirs w; unwritable := unwritable w; stdout := stdout w |} = w.
Proof. by destruct w. Qed.

Lemma bind_run {A B} (m : M A) (k : A → M B) (w : World) :
  (m ≫= k) w = match m w with
               | (Ret a, w') => k a w'
               | (Raise e, w') => (Raise e, w')
               | (OutOfFuel, w') => (OutOfFuel, w')
               end.
Proof. reflexivity. Qed.

Lemma for_each_cons {A} (x : A) (l : list A) (body : A → M unit) (w : World) :
  for_each (x :: l) body w
  = match body x w return outcome unit * World with
    | (Ret _, w') => for_each l body w'
    | (Raise e, w') => (Raise e, w')
    | (OutOfFuel, w') => (OutOfFuel, w')
    end.
Proof. reflexivity. Qed.

Lemma for_each_app {A} (l1 l2 : list A) (body : A → M unit) (w : World) :
  for_each (l1 ++ l2) body w
  = match for_each l1 body w return outcome unit * World with
    | (Ret _, w') => for_each l2 body w'
    | (Raise e, w') => (Raise e, w')
    | (OutOfFuel, w') => (OutOfFuel, w')
    end.
Proof.
  revert w. induction l1 as [|x l1 IH]; intros w; [done|].
  rewrite <- app_comm_cons, !for_each_cons.
  destruct (body x w) as [[[]|e|] w']; auto.
Qed.

Lemma for_each_print {A} (f : A → string) (l : list A) (w : World) :
  for_each l (λ x, print (f x)) w = (Ret tt, with_stdout (stdout w ++ map f l) w).
Proof.
  revert w. induction l as [|x l IH]; intros w.
  - simpl. unfold ret, with_stdout. by rewrite app_nil_r, world_eta.
  - rewrite for_each_cons. unfold print at 1. rewrite IH.
    unfold with_stdout; simpl. by rewrite <- app_assoc.
Qed.

Lemma for_each_write (p : string) (l : list string) (w : World) (c : string) :
  files w !! p = Some c →
  for_each l (λ line, file_write p (line +:+ nl)) w
  = (Ret tt, with_files (<[p := c +:+ lines_text l]> (files w)) w).
Proof.
  revert w c. induction l as [|x l IH]; intros w c Hc.
  - simpl. unfold ret, with_files.
    by rewrite append_empty_r, insert_id, world_eta.
  - rewrite for_each_cons. unfold file_write at 1. rewrite Hc. simpl default.
    erewrite IH; [|apply lookup_insert_eq].
    unfold with_files; simpl. rewrite insert_insert_eq.
    by rewrite !append_assoc.
Qed.

(** The resolver, step by step. *)
Lemma resolver_run (sp : Spotify) (q : string) (th fuel : nat) (w : World) :
  get_playlist_id_by_name sp q th fuel w
  = match get_all_playlists sp fuel with
    | Ret playlists =>
        match List.find (exact_match q) playlists with
        | Some playlist => (Ret (Some (pl_id playlist)), w)
        | None => (Ret None, with_stdout (stdout w ++ suggestion_lines q playlists th) w)
        end
    | Raise e => (Raise e, w)
    | OutOfFuel => (OutOfFuel, w)
    end.
Proof.
  unfold get_playlist_id_by_name. rewrite bind_run. unfold lift.
  destruct (get_all_playlists sp fuel) as [playlists|e|]; [|done..].
  destruct (List.find _ playlists); [done|].
  unfold suggestion_lines.
  destruct (extractBests _ _ _ _) as [|m ms] eqn:Hm.
  - unfold mret, M_ret, ret, with_stdout. by rewrite app_nil_r, world_eta.
  - rewrite bind_run. unfold print at 1. rewrite bind_run.
    rewrite (for_each_print (λ m, "- " +:+ m.1 +:+ "?")).
    rewrite bind_run. unfold print, with_stdout; simpl.
    unfold mret, M_ret, ret. do 2 f_equal.
    by rewrite <- !app_assoc.
Qed.

(** *** The archive writer *)

Lemma output_filename_not_archive (playlist_name : string) :
  output_filename playlist_name ≠ "archive".
Proof.
  unfold output_filename. intros H. rewrite !append_cons in H. discriminate H.
Qed.

(** Opening the file and writing a document into it. *)
Lemma write_file_ok (p header : string) (tracks : list string) (w : World) :
  p ∉ unwritable w → p ∉ dirs w →
  (open_w p;; file_write p header;;
   for_each tracks (λ line, file_write p (line +:+ nl));; mret p) w
  = (Ret p, with_files (<[p := header +:+ lines_text tracks]> (files w)) w).
Proof.
  intros Hu Hd. rewrite bind_run. unfold open_w.
  rewrite (bool_decide_eq_false_2 _ Hu), (bool_decide_eq_false_2 _ Hd). simpl orb. cbv iota.
  rewrite bind_run. unfold file_write at 1.
  rewrite bind_run.
  erewrite for_each_write; [|apply lookup_insert_eq].
  unfold with_files; simpl. rewrite lookup_insert_eq. simpl.
  by rewrite !insert_insert_eq.
Qed.

Lemma write_file_refused (p header : string) (tracks : list string) (w : World) :
  p ∈ unwritable w ∨ p ∈ dirs w →
  (open_w p;; file_write p header;;
   for_each tracks (λ line, file_write p (line +:+ nl));; mret p) w
  = (Raise (OSError p), w).
Proof.
  intros H. rewrite bind_run. unfold open_w.
  destruct H as [H|H]; rewrite (bool_decide_eq_true_2 _ H);
    [done|by rewrite orb_true_r].
Qed.

(** Every run of the writer: the document is at its path and nothing
    else has changed, or the file system has refused and no file has
    changed. *)
Lemma save_cases (playlist_name : string) (tracks : list string) (w : World) :
  (∃ w', save_playlist_to_markdown playlist_name tracks w
         = (Ret (output_filename playlist_name), w')
         ∧ files w' = <[output_filename playlist_name := md_content playlist_name tracks]>
                        (files w)
         ∧ stdout w' = stdout w ∧ unwritable w' = unwritable w
         ∧ dirs w ⊆ dirs w' ∧ dirs w' ⊆ {["archive"]} ∪ dirs w)
  ∨ (∃ e w', save_playlist_to_markdown playlist_name tracks w = (Raise e, w')
             ∧ files w' = files w ∧ stdout w' = stdout w
             ∧ unwritable w' = unwritable w
             ∧ ¬ can_archive w playlist_name).
Proof.
  unfold save_playlist_to_markdown. rewrite bind_run. unfold os_path_exists.
  destruct (bool_decide ("archive" ∈ dirs w) || bool_decide (is_Some (files w !! "archive")))
    eqn:Hpresent.
  - rewrite bind_run.
    change (@mret M M_ret unit tt w) with ((Ret tt, w) : outcome unit * World).
    cbv beta iota.
    destruct (decide (output_filename playlist_name ∈ unwritable w
                      ∨ output_filename playlist_name ∈ dirs w)) as [Hno|Hyes].
    + right. rewrite write_file_refused by done.
      eexists _, _. split; [done|]. repeat split. unfold can_archive. tauto.
    + left. rewrite write_file_ok by tauto.
      eexists. split; [done|]. unfold md_content, with_files. simpl.
      rewrite !append_assoc. repeat split; [done|apply union_subseteq_r].
  - apply orb_false_elim in Hpresent as [Hdir Hfile].
    rewrite bind_run. unfold os_makedirs. rewrite Hdir, Hfile, !orb_false_r.
    destruct (bool_decide ("archive" ∈ unwritable w)) eqn:Harch.
    { right. eexists _, _. split; [done|]. repeat split.
      apply bool_decide_eq_true_1 in Harch. unfold can_archive. tauto. }
    set (w1 := with_dirs ({["archive"]} ∪ dirs w) w). cbv beta iota.
    destruct (decide (output_filename playlist_name ∈ unwritable w1
                      ∨ output_filename playlist_name ∈ dirs w1)) as [Hno|Hyes].
    + right. rewrite write_file_refused by done.
      eexists _, _. split; [done|]. repeat split.
      unfold can_archive. subst w1. simpl in Hno.
      pose proof (output_filename_not_archive playlist_name) as Hne.
      intros (_ & Hu & Hd). destruct Hno as [Hno|Hno]; [done|].
      apply elem_of_union in Hno as [Hno%elem_of_singleton|Hno]; done.
    + left. rewrite write_file_ok by tauto.
      eexists. split; [done|]. unfold md_content, with_files. simpl.
      rewrite !append_assoc. repeat split; [apply union_subseteq_r|done].
Qed.

Lemma save_ok (playlist_name : string) (tracks : list string) (w : World) :
  can_archive w playlist_name →
  ∃ w', save_playlist_to_markdown playlist_name tracks w
        = (Ret (output_filename playlist_name), w')
        ∧ files w' = <[output_filename playlist_name := md_content playlist_name tracks]>
                       (files w)
        ∧ stdout w' = stdout w ∧ unwritable w' = unwritable w
        ∧ dirs w ⊆ dirs w' ∧ dirs w' ⊆ {["archive"]} ∪ dirs w.
Proof.
  intros Hcan. destruct (save_cases playlist_name tracks w) as [H|H]; [done|].
  destruct H as (e & w' & _ & _ & _ & _ & Hnot). contradiction.
Qed.

Lemma can_archive_after_save (name : string) (w w' : World) :
  can_archive w name →
  unwritable w' = unwritable w → dirs w' ⊆ {["archive"]} ∪ dirs w →
  can_archive w' name.
Proof.
  unfold can_archive. intros (Ha & Hu & Hd) Hu' Hd'. rewrite Hu'.
  pose proof (output_filename_not_archive name) as Hne.
  repeat split; [done..|].
  intros Hin. apply Hd' in Hin. apply elem_of_union in Hin as [Hin%elem_of_singleton|Hin]; done.
Qed.

(** *** One turn of the batch loops *)

Lemma batch_item_run (sp : Spotify) (fuel : nat) (name : string) (w : World) :
  archive_batch_item sp fuel name w
  = let w1 := with_stdout (stdout w ++ [archiving_message name]) w in
    match get_all_playlists sp fuel with
    | Ret playlists =>
        match resolved playlists name with
        | Some playlist =>
            match get_playlist_tracks sp (pl_id playlist) fuel with
            | Ret tracks =>
                match save_playlist_to_markdown name tracks w1 with
                | (Ret _, w2) =>
                    (Ret tt, with_stdout (stdout w2 ++ [success_message name]) w2)
                | (Raise e, w2) => (Raise e, w2)
                | (OutOfFuel, w2) => (OutOfFuel, w2)
                end
            | Raise e => (Raise e, w1)
            | OutOfFuel => (OutOfFuel, w1)
            end
        | None =>
            (Ret tt, with_stdout (stdout w1 ++ skip_lines playlists name) w1)
        end
    | Raise e => (Raise e, w1)
    | OutOfFuel => (OutOfFuel, w1)
    end.
Proof.
  unfold archive_batch_item. rewrite bind_run. unfold print at 1. cbv beta iota zeta.
  rewrite bind_run, resolver_run. unfold resolved, skip_lines.
  destruct (get_all_playlists sp fuel) as [playlists|e|]; [|done..].
  destruct (List.find _ playlists) as [playlist|].
  - destruct (truthy (Some (pl_id playlist))) eqn:Hid; cbv beta iota; rewrite ?Hid.
    + rewrite bind_run. unfold lift. simpl default.
      destruct (get_playlist_tracks sp (pl_id playlist) fuel) as [tracks|e|]; [|done..].
      rewrite bind_run.
      destruct (save_playlist_to_markdown name tracks _) as [[path|e|] w2]; done.
    + done.
  - cbv beta iota. unfold print, with_stdout. simpl. by rewrite <- !app_assoc.
Qed.

Lemma all_item_run (sp : Spotify) (fuel : nat) (playlist : Playlist) (w : World) :
  archive_all_item sp fuel playlist w
  = match get_playlist_tracks sp (pl_id playlist) fuel with
    | Ret tracks =>
        match save_playlist_to_markdown (pl_name playlist) tracks w with
        | (Ret _, w2) => (Ret tt, w2)
        | (Raise e, w2) => (Raise e, w2)
        | (OutOfFuel, w2) => (OutOfFuel, w2)
        end
    | Raise e => (Raise e, w)
    | OutOfFuel => (OutOfFuel, w)
    end.
Proof.
  unfold archive_all_item. rewrite bind_run. unfold lift.
  destruct (get_playlist_tracks sp (pl_id playlist) fuel) as [tracks|e|]; [|done..].
  rewrite bind_run.
  destruct (save_playlist_to_markdown _ tracks w) as [[path|e|] w2]; done.
Qed.

(** A turn of the named batch changes no file but the archive of its
    name, and that one only when the name resolves; it keeps the
    refusals of the file system. *)
Lemma batch_item_frame (sp : Spotify) (fuel : nat) (name : string) (w w' : World)
    (r : outcome unit) :
  archive_batch_item sp fuel name w = (r, w') →
  unwritable w' = unwritable w
  ∧ ∀ p, files w' !! p ≠ files w !! p →
         p = output_filename name
         ∧ ∃ playlists playlist,
             get_all_playlists sp fuel = Ret playlists
             ∧ resolved playlists name = Some playlist.
Proof.
  rewrite batch_item_run. cbv zeta.
  destruct (get_all_playlists sp fuel) as [playlists|e|];
    [|intros [= <- <-]; by split..].
  destruct (resolved playlists name) as [playlist|] eqn:Hres;
    [|intros [= <- <-]; by split].
  destruct (get_playlist_tracks sp (pl_id playlist) fuel) as [tracks|e|];
    [|intros [= <- <-]; by split..].
  destruct (save_cases name tracks (with_stdout (stdout w ++ [archiving_message name]) w))
    as [(w2 & -> & Hf & _ & Hu & _)|(e & w2 & -> & Hf & _ & Hu & _)];
    intros [= <- <-]; simpl in *; (split; [done|]); rewrite Hf; [|done].
  intros p Hp. destruct (decide (p = output_filename name)) as [->|Hne].
  - split; [done|]. by exists playlists, playlist.
  - by rewrite lookup_insert_ne in Hp.
Qed.

Lemma batch_loop_frame (sp : Spotify) (fuel : nat) (names : list string) :
  ∀ (w w' : World) (r : outcome unit),
    for_each names (archive_batch_item sp fuel) w = (r, w') →
    ∀ p, files w' !! p ≠ files w !! p →
         ∃ name playlists playlist,
           name ∈ names ∧ p = output_filename name
           ∧ get_all_playlists sp fuel = Ret playlists
           ∧ resolved playlists name = Some playlist.
Proof.
  induction names as [|name names IH]; intros w w' r Hrun p Hp.
  - injection Hrun as <- <-. done.
  - rewrite for_each_cons in Hrun.
    destruct (archive_batch_item sp fuel name w) as [rx w1] eqn:Hitem.
    apply batch_item_frame in Hitem as [_ Hitem].
    destruct (decide (files w1 !! p = files w !! p)) as [Heq|Hne].
    + destruct rx as [[]|e|]; [|injection Hrun as <- <-; congruence..].
      destruct (IH _ _ _ Hrun p) as (n & pls & pl & Hin & ?); [congruence|].
      exists n, pls, pl. split; [by right|done].
    + destruct (Hitem p Hne) as (-> & pls & pl & ?).
      exists name, pls, pl. split; [by left|done].
Qed.

End Runs.


(** ** Properties of the pagination loops and of the formatter *)

(** C1. A listing of any size served in pages of any size [P >= 1] comes
    back whole and in the order of the remote: the playlist loop returns
    the listing itself and the track loop the lines of all its items,
    for the loops at page size [P] and for [get_all_playlists] (50) and
    [get_playlist_tracks] (100).  On any remote the playlist loop starts
    at offset 0, moves on by the page size after each page, leaves at the
    first page without a next link and returns the items in the order
    they were fetched. *)
Theorem C1_pagination_returns_listing
    (playlists : list Playlist) (tracks : string → list Item) (pid : string)
    (P fuel : nat) :
  0 < P → length playlists < fuel → length (tracks pid) < fuel →
  playlists_loop (serve playlists tracks) P fuel 0 [] = Ret playlists
  ∧ tracks_loop (serve playlists tracks) pid P fuel 0 0 [] = Ret (format_items (tracks pid))
  ∧ get_all_playlists (serve playlists tracks) fuel = Ret playlists
  ∧ get_playlist_tracks (serve playlists tracks) pid fuel = Ret (format_items (tracks pid))
  ∧ ∀ (sp : Spotify) (pages : nat → Page Playlist) (k : nat),
      (∀ i, i ≤ k → current_user_playlists sp P (i * P) = Ok (pages i)) →
      (∀ i, i < k → truthy (next (pages i)) = true) →
      truthy (next (pages k)) = false →
      playlists_loop sp P (S k) 0 []
      = Ret (concat (map (λ i, items (pages i)) (seq 0 (S k)))).
Proof.
  intros HP Hpl Htr.
  assert (Hmul : ∀ n limit, 0 < limit → n < fuel → n < 0 + fuel * limit) by (intros; nia).
  repeat split.
  - rewrite (playlists_loop_paged playlists tracks P) by (auto with lia). done.
  - rewrite (tracks_loop_paged playlists tracks pid P) by (auto with lia). done.
  - unfold get_all_playlists.
    rewrite (playlists_loop_paged playlists tracks 50) by (auto with lia). done.
  - unfold get_playlist_tracks.
    rewrite (tracks_loop_paged playlists tracks pid 100) by (auto with lia). done.
  - intros sp pages k Hfetch Hmore Hlast.
    rewrite (playlists_loop_trace sp P pages k 0 []); auto.
Qed.

(** A listing of three playlists in pages of two (N = P + 1) and two raw
    tracks in one full page (N = P). *)
Lemma C1_witness :
  playlists_loop (serve three_playlists (λ _, take 2 round_trip_tracks)) 2 4 0 []
  = Ret three_playlists.
Proof.
  apply (C1_pagination_returns_listing three_playlists (λ _, take 2 round_trip_tracks)
           "id-a" 2 4); simpl; lia.
Defined.

(** C2. Of [n] raw entries with [k] null ones the formatter makes
    [n - k] lines: one for each non-null track, in order, the line at
    position [i] (from 0) carrying the number [i + 1]; a null entry gives
    no line and takes no number, and the count goes on from one page to
    the next. *)
Theorem C2_formatter_skips_null_entries
    (raw : list Item) (playlists : list Playlist) (pid : string) (P fuel : nat) :
  0 < P → length raw < fuel →
  length (format_items raw) = length raw - null_entries raw
  ∧ length (format_items raw) + null_entries raw = length raw
  ∧ format_items raw
    = imap (λ i track, pretty (S i) +:+ ". _" +:+ track_name track +:+ "_ by "
                       +:+ artist_names (track_artists track))
           (omap item_track raw)
  ∧ tracks_loop (serve playlists (λ _, raw)) pid P fuel 0 0 [] = Ret (format_items raw)
  ∧ get_playlist_tracks (serve playlists (λ _, raw)) pid fuel = Ret (format_items raw).
Proof.
  intros HP Hfuel.
  assert (Hmul : ∀ limit, 0 < limit → length raw < 0 + fuel * limit) by (intros; nia).
  repeat split.
  - rewrite format_items_imap, length_imap.
    pose proof (omap_null_entries raw). lia.
  - rewrite format_items_imap, length_imap. apply omap_null_entries.
  - apply format_items_imap.
  - rewrite (tracks_loop_paged playlists (λ _, raw) pid P) by (auto with lia). done.
  - unfold get_playlist_tracks.
    rewrite (tracks_loop_paged playlists (λ _, raw) pid 100) by (auto with lia). done.
Qed.

(** The round-trip tracks in pages of two: the null entry closes the
    first page and the second line opens the second page. *)
Lemma C2_witness :
  tracks_loop (serve [] (λ _, round_trip_tracks)) "id-a" 2 4 0 0 []
  = Ret ["1. _Song A_ by Artist X"; "2. _Song B_ by Unknown Artist"].
Proof.
  refine (proj1 (proj2 (proj2 (proj2
    (C2_formatter_skips_null_entries round_trip_tracks [] "id-a" 2 4 _ _)))));
    simpl; lia.
Defined.

(** C7. On a remote whose every page is empty and announces a next page
    the loop of [get_all_playlists] has not left after any number of
    turns, while the loop of [get_playlist_tracks] leaves at the first
    page. *)
Theorem C7_playlist_loop_stuck_on_empty_pages :
  (∀ fuel, get_all_playlists stuck_remote fuel = OutOfFuel)
  ∧ (∀ pid fuel, get_playlist_tracks stuck_remote pid (S fuel) = Ret []).
Proof.
  split.
  - intros fuel. apply playlists_loop_stuck.
  - done.
Qed.

(** C9. An empty artist list is rendered as the one string
    "Unknown Artist", and so is every artist entry without a name,
    wherever it stands in the list. *)
Theorem C9_unknown_artist :
  artist_names [] = "Unknown Artist"
  ∧ artist_text {| artist_name := None |} = "Unknown Artist"
  ∧ artist_names [ {| artist_name := None |} ] = "Unknown Artist"
  ∧ (∀ pre post : list Artist,
       artist_names (pre ++ {| artist_name := None |} :: post)
       = join ", " (map artist_text pre ++ "Unknown Artist" :: map artist_text post))
  ∧ (∀ (idx : nat) (name : string),
       track_line idx {| track_name := name; track_artists := [] |}
       = pretty idx +:+ ". _" +:+ name +:+ "_ by " +:+ "Unknown Artist").
Proof.
  repeat split.
  intros pre post. unfold artist_names.
  destruct pre as [|a pre]; [done|].
  by rewrite <- app_comm_cons, map_cons, map_app.
Qed.

(** ** Properties of the resolver *)

Lemma find_first_match {A} (f : A → bool) (pre post : list A) (x : A) :
  f x = true → (∀ y, y ∈ pre → f y = false) →
  List.find f (pre ++ x :: post) = Some x.
Proof.
  intros Hx. induction pre as [|y pre IH]; intros Hpre; simpl.
  - by rewrite Hx.
  - rewrite (Hpre y) by left. apply IH. intros z Hz. apply Hpre. by right.
Qed.

Lemma find_exact_match `{T : TextLib} (query : string) (playlists : list Playlist)
    (playlist : Playlist) :
  List.find (exact_match query) playlists = Some playlist →
  playlist ∈ playlists ∧ lower (nfkc (strip (pl_name playlist))) = lower query.
Proof.
  intros [Hin Hm]%find_some. split.
  - by apply list_elem_of_In.
  - by apply String.eqb_eq in Hm.
Qed.

Lemma find_no_exact_match `{T : TextLib} (query : string) (playlists : list Playlist) :
  (∀ p, p ∈ playlists → lower (nfkc (strip (pl_name p))) ≠ lower query) →
  List.find (exact_match query) playlists = None.
Proof.
  intros Hno. destruct (List.find _ playlists) as [p|] eqn:Hfind; [|done].
  apply find_exact_match in Hfind as [Hin Heq]. by destruct (Hno p Hin).
Qed.

(** C3 (as the code has it). The resolver normalizes every playlist name
    (strip, then NFKC) and compares its lower-case form with the
    lower-case form of the query as it was given; the first playlist in
    listing order for which the two are equal is returned, and then
    nothing is printed: the fuzzy search is not run. *)
Theorem C3_first_exact_match_wins `{T : TextLib}
    (sp : Spotify) (query : string) (fuzzy_threshold fuel : nat) (w : World)
    (pre post : list Playlist) (playlist : Playlist) :
  get_all_playlists sp fuel = Ret (pre ++ playlist :: post) →
  lower (nfkc (strip (pl_name playlist))) = lower query →
  (∀ p, p ∈ pre → lower (nfkc (strip (pl_name p))) ≠ lower query) →
  get_playlist_id_by_name sp query fuzzy_threshold fuel w = (Ret (Some (pl_id playlist)), w).
Proof.
  intros Hlist Hmatch Hpre. rewrite resolver_run, Hlist.
  rewrite (find_first_match _ pre post playlist); [done| |].
  - by apply String.eqb_eq.
  - intros p Hp. apply String.eqb_neq. by apply Hpre.
Qed.

(** Two playlists normalize to "rock"; the one listed first is returned,
    although the scorer has a suggestion ready. *)
Lemma C3_witness :
  get_playlist_id_by_name (T := rock_text) (serve rock_listing (λ _, [])) "Rock" 80 1
                          empty_world
  = (Ret (Some "p1"), empty_world).
Proof.
  apply (C3_first_exact_match_wins (T := rock_text) (serve rock_listing (λ _, []))
           "Rock" 80 1 empty_world
           [ {| pl_id := "p0"; pl_name := "Jazz" |} ]
           [ {| pl_id := "p2"; pl_name := "ROCK" |} ]
           {| pl_id := "p1"; pl_name := " rock " |}).
  - reflexivity.
  - reflexivity.
  - intros p Hp. apply list_elem_of_singleton in Hp. subst p. vm_compute. discriminate.
Defined.

(** The query is not normalized: with a leading space it equals the
    playlist name once both are normalized, and still the resolver finds
    no exact match, runs the fuzzy search and returns nothing. *)
Lemma C3_counterexample :
  @lower rock_text (@nfkc rock_text (@strip rock_text (pl_name {| pl_id := "p1"; pl_name := "Rock" |})))
  = @lower rock_text (@nfkc rock_text (@strip rock_text " Rock"))
  ∧ get_playlist_id_by_name (T := rock_text)
      (serve [ {| pl_id := "p1"; pl_name := "Rock" |} ] (λ _, [])) " Rock" 80 1 empty_world
    = (Ret None,
       with_stdout [ "Exact playlist match not found for ' Rock'." +:+ nl +:+ "Did you mean:";
                     "- Rock?"; nl ] empty_world).
Proof. split; vm_compute; reflexivity. Qed.

(** C10. The resolver returns an id only for a playlist of the listing
    whose normalized name equals the query under the case-insensitive
    comparison, and then prints nothing.  When no playlist matches in
    that way, whatever the scorer proposes is only printed: the resolver
    returns nothing, the named batch reports a skip and the single
    archive command raises, and no file is written. *)
Theorem C10_found_only_on_exact_match `{T : TextLib}
    (sp : Spotify) (query : string) (fuel : nat) (w : World) :
  (∀ fuzzy_threshold id w',
     get_playlist_id_by_name sp query fuzzy_threshold fuel w = (Ret (Some id), w') →
     w' = w
     ∧ ∃ playlists playlist,
         get_all_playlists sp fuel = Ret playlists
         ∧ playlist ∈ playlists
         ∧ lower (nfkc (strip (pl_name playlist))) = lower query
         ∧ id = pl_id playlist)
  ∧ (∀ playlists,
       get_all_playlists sp fuel = Ret playlists →
       (∀ p, p ∈ playlists → lower (nfkc (strip (pl_name p))) ≠ lower query) →
       (∀ fuzzy_threshold,
          get_playlist_id_by_name sp query fuzzy_threshold fuel w
          = (Ret None,
             with_stdout (stdout w ++ suggestion_lines query playlists fuzzy_threshold) w))
       ∧ (∃ w', archive_batch_item sp fuel query w = (Ret tt, w') ∧ files w' = files w)
       ∧ (∃ msg w', handle_archive_playlist sp query fuel w
                    = (Raise (PlaylistArchiverError msg), w')
                    ∧ files w' = files w)).
Proof.
  split.
  - intros th id w'. rewrite resolver_run.
    destruct (get_all_playlists sp fuel) as [playlists|e|]; [|done..].
    destruct (List.find _ playlists) as [playlist|] eqn:Hfind; [|done].
    intros [= <- <-]. split; [done|].
    apply find_exact_match in Hfind as [Hin Heq]. by exists playlists, playlist.
  - intros playlists Hlist Hno. apply find_no_exact_match in Hno.
    repeat split.
    + intros th. by rewrite resolver_run, Hlist, Hno.
    + rewrite batch_item_run, Hlist. unfold resolved. rewrite Hno. cbv zeta.
      by eexists.
    + unfold handle_archive_playlist. destruct query as [|c query].
      * by eexists _, _.
      * rewrite bind_run, resolver_run, Hlist, Hno. cbv beta iota.
        unfold truthy, raise. by eexists _, _.
Qed.

(** The resolver finds "Rock" in [rock_listing]: the id is that of a
    playlist whose normalized name is the query but for the case. *)
Lemma C10_witness :
  ∃ playlists playlist,
    get_all_playlists (serve rock_listing (λ _, [])) 1 = Ret playlists
    ∧ playlist ∈ playlists
    ∧ @lower rock_text (@nfkc rock_text (@strip rock_text (pl_name playlist)))
      = @lower rock_text "Rock"
    ∧ "p1" = pl_id playlist.
Proof.
  refine (proj2 (proj1 (C10_found_only_on_exact_match (T := rock_text)
                          (serve rock_listing (λ _, [])) "Rock" 1 empty_world)
                   80 "p1" empty_world _)).
  vm_compute. reflexivity.
Defined.

(** ** Properties of the archive writer *)

(** C4. Whenever the file system takes the archive directory and the
    file, archiving writes at the derived path the heading
    [# <playlist_name> Song Archive], an empty line, and then each line
    as it is, ended by a newline; for the three raw tracks of the
    round-trip scenario the document holds the two lines
    [1. _Song A_ by Artist X] and [2. _Song B_ by Unknown Artist] and no
    other. *)
Theorem C4_archive_document `{T : TextLib}
    (w : World) (playlist_name playlist_id : string) (tracks : list string) (fuel : nat) :
  can_archive w playlist_name →
  (∃ w', save_playlist_to_markdown playlist_name tracks w
         = (Ret (output_filename playlist_name), w')
         ∧ files w' !! output_filename playlist_name
           = Some ("# " +:+ playlist_name +:+ " Song Archive" +:+ nl +:+ nl
                   +:+ lines_text tracks))
  ∧ (∃ w', archive_all_item (serve [] (λ _, round_trip_tracks)) (S fuel)
                            {| pl_id := playlist_id; pl_name := playlist_name |} w
           = (Ret tt, w')
           ∧ files w' !! output_filename playlist_name
             = Some ("# " +:+ playlist_name +:+ " Song Archive" +:+ nl +:+ nl
                     +:+ "1. _Song A_ by Artist X" +:+ nl
                     +:+ "2. _Song B_ by Unknown Artist" +:+ nl)).
Proof.
  intros Hcan. split.
  - destruct (save_ok playlist_name tracks w Hcan) as (w' & Hrun & Hf & _).
    exists w'. split; [done|]. rewrite Hf. apply lookup_insert_eq.
  - rewrite all_item_run. simpl pl_id. simpl pl_name.
    change (get_playlist_tracks (serve [] (λ _, round_trip_tracks)) playlist_id (S fuel))
      with (Ret ["1. _Song A_ by Artist X"; "2. _Song B_ by Unknown Artist"]).
    destruct (save_ok playlist_name
                ["1. _Song A_ by Artist X"; "2. _Song B_ by Unknown Artist"] w Hcan)
      as (w' & -> & Hf & _).
    exists w'. split; [done|]. rewrite Hf. apply lookup_insert_eq.
Qed.

(** Archiving two lines under the name "Mix" from the empty world. *)
Lemma C4_witness :
  ∃ w', save_playlist_to_markdown (T := plain_text) "Mix" ["1. a"; "2. b"] empty_world
        = (Ret "archive/mix_playlist_archive.md", w')
        ∧ files w' !! "archive/mix_playlist_archive.md"
          = Some ("# Mix Song Archive" +:+ nl +:+ nl +:+ "1. a" +:+ nl +:+ "2. b" +:+ nl).
Proof.
  refine (proj1 (C4_archive_document (T := plain_text) empty_world "Mix" "id-a"
                   ["1. a"; "2. b"] 0 _)).
  unfold can_archive. vm_compute. repeat split; intros H; inversion H.
Defined.

(** C5. The path of an archive is a function of the playlist name
    alone: the directory [archive], then the name with its spaces
    replaced by underscores and lowercased, then
    [_playlist_archive.md]; "My Playlist!" gives
    [archive/my_playlist!_playlist_archive.md].  Two writes under one
    name leave at that path the document of the second write only. *)
Theorem C5_path_and_overwrite `{T : TextLib}
    (w : World) (playlist_name : string) (first second : list string) :
  can_archive w playlist_name →
  output_filename playlist_name
  = "archive/" +:+ lower (replace_space playlist_name) +:+ "_playlist_archive.md"
  ∧ (∀ scorer, @output_filename (ascii_text scorer) "My Playlist!"
               = "archive/my_playlist!_playlist_archive.md")
  ∧ ∃ w1 w2,
      save_playlist_to_markdown playlist_name first w
      = (Ret (output_filename playlist_name), w1)
      ∧ save_playlist_to_markdown playlist_name second w1
        = (Ret (output_filename playlist_name), w2)
      ∧ files w2 !! output_filename playlist_name = Some (md_content playlist_name second)
      ∧ files w2 = <[output_filename playlist_name := md_content playlist_name second]>
                     (files w).
Proof.
  intros Hcan. repeat split.
  destruct (save_ok playlist_name first w Hcan) as (w1 & Hrun1 & Hf1 & _ & Hu1 & _ & Hd1).
  pose proof (can_archive_after_save playlist_name w w1 Hcan Hu1 Hd1) as Hcan1.
  destruct (save_ok playlist_name second w1 Hcan1) as (w2 & Hrun2 & Hf2 & _).
  exists w1, w2. repeat split; [done..| |].
  - rewrite Hf2. apply lookup_insert_eq.
  - by rewrite Hf2, Hf1, insert_insert_eq.
Qed.

(** Two writes under "My Playlist!" from the empty world. *)
Lemma C5_witness :
  ∃ w1 w2,
    save_playlist_to_markdown (T := plain_text) "My Playlist!" ["1. old"; "2. older"]
                              empty_world
    = (Ret "archive/my_playlist!_playlist_archive.md", w1)
    ∧ save_playlist_to_markdown (T := plain_text) "My Playlist!" ["1. new"] w1
      = (Ret "archive/my_playlist!_playlist_archive.md", w2)
    ∧ files w2 !! "archive/my_playlist!_playlist_archive.md"
      = Some ("# My Playlist! Song Archive" +:+ nl +:+ nl +:+ "1. new" +:+ nl)
    ∧ files w2 = <["archive/my_playlist!_playlist_archive.md" :=
                    "# My Playlist! Song Archive" +:+ nl +:+ nl +:+ "1. new" +:+ nl]> ∅.
Proof.
  refine (proj2 (proj2 (C5_path_and_overwrite (T := plain_text) empty_world "My Playlist!"
                          ["1. old"; "2. older"] ["1. new"] _))).
  unfold can_archive. vm_compute. repeat split; intros H; inversion H.
Defined.

(** ** Properties of the batch handlers *)

Lemma suggestion_lines_not_skip `{T : TextLib} (query : string) (playlists : list Playlist)
    (fuzzy_threshold : nat) (names : list string) :
  filter (λ line, line ∈ map skip_message names)
         (suggestion_lines query playlists fuzzy_threshold) = [].
Proof.
  assert (Hhead : ∀ (c : ascii) (rest : string),
             c ≠ "P"%char → String c rest ∉ map skip_message names).
  { intros c rest Hc [name [Heq _]]%list_elem_of_fmap_1.
    unfold skip_message in Heq. rewrite append_cons in Heq. congruence. }
  unfold suggestion_lines. destruct (extractBests _ _ _ _) as [|m ms]; [done|].
  rewrite append_cons, filter_cons_False by (by apply Hhead).
  rewrite filter_app, (filter_cons_False _ nl []) by (by apply Hhead).
  rewrite filter_nil, app_nil_r. generalize (m :: ms). intros l.
  induction l as [|x l IH]; [done|].
  rewrite map_cons, append_cons, filter_cons_False by (by apply Hhead). apply IH.
Qed.

(** C6. In the named batch a name that does not resolve (no exact
    match, with or without suggestions) is reported and skipped: its turn
    returns, with the skip report as last line and no file changed, and
    the loop goes on with the names after it.  A file changes only when
    it is the archive of a name of the batch that resolves.  With the
    names "RealList" and "GhostList", of which the remote lists only the
    first, the batch returns, the only file is the archive of "RealList"
    and one skip is reported, whatever the scorer proposes. *)
Theorem C6_batch_skips_unresolved_names `{T : TextLib} (sp : Spotify) (fuel : nat) :
  (∀ (name : string) (rest : list string) (w : World) (playlists : list Playlist),
     get_all_playlists sp fuel = Ret playlists →
     resolved playlists name = None →
     ∃ w', archive_batch_item sp fuel name w = (Ret tt, w')
           ∧ files w' = files w
           ∧ stdout w' = (stdout w ++ [archiving_message name]) ++ skip_lines playlists name
           ∧ last (stdout w') = Some (skip_message name)
           ∧ handle_archive_batch sp (name :: rest) fuel w
             = for_each rest (archive_batch_item sp fuel) w')
  ∧ (∀ (names : list string) (w w' : World) (r : outcome unit) (p : string),
       handle_archive_batch sp names fuel w = (r, w') →
       files w' !! p ≠ files w !! p →
       ∃ name playlists playlist,
         name ∈ names ∧ p = output_filename name
         ∧ get_all_playlists sp fuel = Ret playlists
         ∧ resolved playlists name = Some playlist)
  ∧ (∀ scorer, ∃ w',
       handle_archive_batch (T := ascii_text scorer) real_list_remote
                            ["RealList"; "GhostList"] (S fuel) empty_world
       = (Ret tt, w')
       ∧ files w' = {[ "archive/reallist_playlist_archive.md" :=
                        "# RealList Song Archive" +:+ nl +:+ nl
                        +:+ "1. _Song A_ by Artist X" +:+ nl
                        +:+ "2. _Song B_ by Unknown Artist" +:+ nl ]}
       ∧ length (filter (λ line, line ∈ map skip_message ["RealList"; "GhostList"])
                        (stdout w')) = 1).
Proof.
  split; [|split].
  - intros name rest w playlists Hlist Hres.
    eexists. split; [by rewrite batch_item_run, Hlist, Hres|].
    repeat split.
    + cbn [stdout with_stdout]. unfold skip_lines. by rewrite app_assoc, last_snoc.
    + unfold handle_archive_batch. rewrite for_each_cons.
      by rewrite batch_item_run, Hlist, Hres.
  - intros names w w' r p Hrun Hp. destruct names as [|name names].
    + injection Hrun as <- <-. done.
    + by apply (batch_loop_frame sp fuel (name :: names) w w' r).
  - intros scorer.
    assert (Hreal : archive_batch_item (T := ascii_text scorer) real_list_remote (S fuel)
                      "RealList" empty_world
                    = (Ret tt,
                       {| files := {[ "archive/reallist_playlist_archive.md" :=
                                       "# RealList Song Archive" +:+ nl +:+ nl
                                       +:+ "1. _Song A_ by Artist X" +:+ nl
                                       +:+ "2. _Song B_ by Unknown Artist" +:+ nl ]};
                          dirs := {[ "archive" ]}; unwritable := ∅;
                          stdout := [archiving_message "RealList";
                                     success_message "RealList"] |})).
    { rewrite batch_item_run. vm_compute. reflexivity. }
    unfold handle_archive_batch. rewrite for_each_cons, Hreal, for_each_cons.
    rewrite batch_item_run.
    change (get_all_playlists real_list_remote (S fuel))
      with (Ret [ {| pl_id := "id-real"; pl_name := "RealList" |} ]).
    change (resolved (T := ascii_text scorer)
              [ {| pl_id := "id-real"; pl_name := "RealList" |} ] "GhostList")
      with (@None Playlist).
    cbv zeta beta iota. eexists. split; [reflexivity|]. split; [reflexivity|].
    unfold with_stdout, skip_lines; simpl stdout.
    change (List.find (exact_match (T := ascii_text scorer) "GhostList")
              [ {| pl_id := "id-real"; pl_name := "RealList" |} ])
      with (@None Playlist). cbv iota.
    rewrite !filter_cons_False
      by (apply (proj1 (bool_decide_eq_false _)); vm_compute; reflexivity).
    rewrite filter_app, suggestion_lines_not_skip.
    vm_compute. reflexivity.
Qed.

(** "GhostList" against the remote that lists only "RealList". *)
Lemma C6_witness :
  ∃ w', archive_batch_item (T := plain_text) real_list_remote 1 "GhostList" empty_world
        = (Ret tt, w')
        ∧ files w' = files empty_world
        ∧ stdout w'
          = (stdout empty_world ++ [archiving_message "GhostList"])
            ++ skip_lines (T := plain_text)
                 [ {| pl_id := "id-real"; pl_name := "RealList" |} ] "GhostList"
        ∧ last (stdout w') = Some (skip_message "GhostList")
        ∧ handle_archive_batch (T := plain_text) real_list_remote ["GhostList"; "RealList"] 1
                               empty_world
          = for_each ["RealList"] (archive_batch_item (T := plain_text) real_list_remote 1) w'.
Proof.
  refine (proj1 (C6_batch_skips_unresolved_names (T := plain_text) real_list_remote 1)
            "GhostList" ["RealList"] empty_world
            [ {| pl_id := "id-real"; pl_name := "RealList" |} ] _ _);
    vm_compute; reflexivity.
Defined.

(** C8 (as the code has it). In both batch handlers an error raised
    while the tracks of one playlist are fetched, or while its archive is
    written, leaves the loop at once: the handler raises that error and
    ends in the world in which the turn of that playlist has raised it,
    so the playlists after it in the input are not processed and nothing
    more is printed; when it is the fetch that fails, no file has changed
    since the playlists before it. *)
Theorem C8_error_aborts_the_batch `{T : TextLib} (sp : Spotify) (fuel : nat) (e : exn) :
  (∀ (pre rest : list string) (name : string) (w w1 : World)
     (playlists : list Playlist) (playlist : Playlist),
     for_each pre (archive_batch_item sp fuel) w = (Ret tt, w1) →
     get_all_playlists sp fuel = Ret playlists →
     resolved playlists name = Some playlist →
     (get_playlist_tracks sp (pl_id playlist) fuel = Raise e
      ∨ ∃ tracks,
          get_playlist_tracks sp (pl_id playlist) fuel = Ret tracks
          ∧ (save_playlist_to_markdown name tracks
               (with_stdout (stdout w1 ++ [archiving_message name]) w1)).1 = Raise e) →
     ∃ w2, handle_archive_batch sp (pre ++ name :: rest) fuel w = (Raise e, w2)
           ∧ archive_batch_item sp fuel name w1 = (Raise e, w2)
           ∧ stdout w2 = stdout w1 ++ [archiving_message name]
           ∧ (get_playlist_tracks sp (pl_id playlist) fuel = Raise e →
              files w2 = files w1))
  ∧ (∀ (pre rest : list Playlist) (playlist : Playlist) (w w1 : World),
       get_all_playlists sp fuel = Ret (pre ++ playlist :: rest) →
       for_each pre (archive_all_item sp fuel) w = (Ret tt, w1) →
       (get_playlist_tracks sp (pl_id playlist) fuel = Raise e
        ∨ ∃ tracks,
            get_playlist_tracks sp (pl_id playlist) fuel = Ret tracks
            ∧ (save_playlist_to_markdown (pl_name playlist) tracks w1).1 = Raise e) →
       ∃ w2, handle_archive_all sp fuel w = (Raise e, w2)
             ∧ archive_all_item sp fuel playlist w1 = (Raise e, w2)
             ∧ stdout w2 = stdout w1
             ∧ (get_playlist_tracks sp (pl_id playlist) fuel = Raise e → w2 = w1)).
Proof.
  split.
  - intros pre rest name w w1 playlists playlist Hpre Hlist Hres Herr.
    assert (∃ w2, archive_batch_item sp fuel name w1 = (Raise e, w2)
                  ∧ stdout w2 = stdout w1 ++ [archiving_message name]
                  ∧ (get_playlist_tracks sp (pl_id playlist) fuel = Raise e →
                     files w2 = files w1)) as (w2 & Hitem & Hout & Hfiles).
    { rewrite batch_item_run, Hlist, Hres. cbv zeta.
      destruct Herr as [->|(tracks & -> & Hsave)]; [by eexists|].
      destruct (save_cases name tracks (with_stdout (stdout w1 ++ [archiving_message name]) w1))
        as [(w2 & Hrun & _)|(e' & w2 & Hrun & _ & Ho & _)];
        rewrite Hrun in Hsave |- *; simpl in Hsave; [done|].
      injection Hsave as ->. exists w2. by rewrite Ho. }
    exists w2. split; [|done].
    unfold handle_archive_batch.
    destruct (pre ++ name :: rest) as [|n0 l0] eqn:Hnames.
    { by destruct pre. }
    by rewrite <- Hnames, for_each_app, Hpre, for_each_cons, Hitem.
  - intros pre rest playlist w w1 Hlist Hpre Herr.
    assert (∃ w2, archive_all_item sp fuel playlist w1 = (Raise e, w2)
                  ∧ stdout w2 = stdout w1
                  ∧ (get_playlist_tracks sp (pl_id playlist) fuel = Raise e → w2 = w1))
      as (w2 & Hitem & Hout & Hsame).
    { rewrite all_item_run.
      destruct Herr as [->|(tracks & -> & Hsave)]; [by eexists|].
      destruct (save_cases (pl_name playlist) tracks w1)
        as [(w2 & Hrun & _)|(e' & w2 & Hrun & _ & Ho & _)];
        rewrite Hrun in Hsave |- *; simpl in Hsave; [done|].
      injection Hsave as ->. by exists w2. }
    exists w2. split; [|done].
    unfold handle_archive_all. rewrite bind_run. unfold lift. rewrite Hlist.
    destruct (pre ++ playlist :: rest) as [|p0 l0] eqn:Hnames.
    { by destruct pre. }
    by rewrite <- Hnames, bind_run, for_each_app, Hpre, for_each_cons, Hitem.
Qed.

(** The tracks of "Beta" cannot be fetched: the batch over "Alpha",
    "Beta", "Gamma" raises after "Alpha". *)
Lemma C8_witness :
  ∃ w2, handle_archive_batch (T := plain_text) failing_remote ["Alpha"; "Beta"; "Gamma"] 1
                             empty_world
        = (Raise (SpotifyException "503 Service Unavailable"), w2)
        ∧ archive_batch_item (T := plain_text) failing_remote 1 "Beta"
            (for_each ["Alpha"] (archive_batch_item (T := plain_text) failing_remote 1)
                      empty_world).2
          = (Raise (SpotifyException "503 Service Unavailable"), w2)
        ∧ stdout w2
          = stdout (for_each ["Alpha"] (archive_batch_item (T := plain_text) failing_remote 1)
                             empty_world).2
            ++ [archiving_message "Beta"]
        ∧ (get_playlist_tracks failing_remote "id-b" 1
           = Raise (SpotifyException "503 Service Unavailable") →
           files w2
           = files (for_each ["Alpha"] (archive_batch_item (T := plain_text) failing_remote 1)
                             empty_world).2).
Proof.
  refine (proj1 (C8_error_aborts_the_batch (T := plain_text) failing_remote 1
                   (SpotifyException "503 Service Unavailable"))
            ["Alpha"] ["Gamma"] "Beta" empty_world _ three_playlists
            {| pl_id := "id-b"; pl_name := "Beta" |} _ _ _ _).
  - vm_compute. reflexivity.
  - vm_compute. reflexivity.
  - vm_compute. reflexivity.
  - left. vm_compute. reflexivity.
Defined.

(** The batch does not go on after the failure: "Gamma" resolves, its
    tracks can be fetched and its archive written (alone it is archived),
    and yet after the error on "Beta" it is neither announced nor
    archived; the same when the archive of "Beta" cannot be written. *)
Lemma C8_counterexample :
  (handle_archive_batch (T := plain_text) failing_remote ["Gamma"] 1 empty_world).1 = Ret tt
  ∧ (handle_archive_batch (T := plain_text) failing_remote ["Alpha"; "Beta"; "Gamma"] 1
                          empty_world).1
    = Raise (SpotifyException "503 Service Unavailable")
  ∧ files (handle_archive_batch (T := plain_text) failing_remote ["Alpha"; "Beta"; "Gamma"] 1
                                empty_world).2
    !! "archive/gamma_playlist_archive.md" = None
  ∧ stdout (handle_archive_batch (T := plain_text) failing_remote
                                 ["Alpha"; "Beta"; "Gamma"] 1 empty_world).2
    = [archiving_message "Alpha"; success_message "Alpha"; archiving_message "Beta"]
  ∧ (handle_archive_all (T := plain_text) (serve three_playlists (λ _, round_trip_tracks)) 1
                        locked_world).1
    = Raise (OSError "archive/beta_playlist_archive.md")
  ∧ files (handle_archive_all (T := plain_text)
             (serve three_playlists (λ _, round_trip_tracks)) 1 locked_world).2
    !! "archive/gamma_playlist_archive.md" = None.
Proof. repeat split; vm_compute; reflexivity. Qed.

(** ** Further properties of the pagination loops *)

(** After [k] pages that each announce a next page the playlist loop is
    where it would be had it started at the offset of page [k] with the
    items of those pages. *)
Lemma playlists_loop_prefix (sp : Spotify) (limit : nat) (pages : nat → Page Playlist) :
  ∀ k fuel offset acc,
    (∀ i, i < k → current_user_playlists sp limit (offset + i * limit) = Ok (pages i)
                  ∧ truthy (next (pages i)) = true) →
    playlists_loop sp limit (k + fuel) offset acc
    = playlists_loop sp limit fuel (offset + k * limit)
        (acc ++ concat (map (λ i, items (pages i)) (seq 0 k))).
Proof.
  intros k. revert pages.
  induction k as [|k IH]; intros pages fuel offset acc Hpages.
  - simpl. by rewrite Nat.add_0_r, app_nil_r.
  - destruct (Hpages 0) as [H0 Hn0]; [lia|]. rewrite Nat.add_0_r in H0.
    change (S k + fuel) with (S (k + fuel)). rewrite playlists_loop_S, H0, Hn0.
    rewrite (IH (λ i, pages (S i))).
    + f_equal; [simpl; lia|].
      rewrite <- app_assoc. f_equal.
      change (seq 0 (S k)) with (0 :: seq 1 k).
      by rewrite <- seq_shift, map_cons, map_map.
    + intros i Hi. destruct (Hpages (S i)) as [Hp Hn]; [lia|].
      split; [|done]. rewrite <- Hp. f_equal. simpl. lia.
Qed.

(** The same for the track loop, over pages that are not empty. *)
Lemma tracks_loop_prefix (sp : Spotify) (pid : string) (limit : nat)
    (pages : nat → Page Item) :
  ∀ k fuel offset idx acc,
    (∀ i, i < k → playlist_tracks sp pid (offset + i * limit) limit = Ok (pages i)
                  ∧ items (pages i) ≠ []
                  ∧ truthy (next (pages i)) = true) →
    tracks_loop sp pid limit (k + fuel) offset idx acc
    = let st := fold_left format_item (concat (map (λ i, items (pages i)) (seq 0 k)))
                          (idx, acc) in
      tracks_loop sp pid limit fuel (offset + k * limit) st.1 st.2.
Proof.
  intros k. revert pages.
  induction k as [|k IH]; intros pages fuel offset idx acc Hpages.
  - simpl. by rewrite Nat.add_0_r.
  - destruct (Hpages 0) as (H0 & Hne & Hn0); [lia|]. rewrite Nat.add_0_r in H0.
    change (S k + fuel) with (S (k + fuel)). rewrite tracks_loop_S, H0, Hn0.
    destruct (items (pages 0)) as [|it its] eqn:Hit; [done|]. rewrite <- Hit.
    cbv zeta. rewrite (IH (λ i, pages (S i))).
    + cbv zeta. rewrite <- surjective_pairing, <- fold_left_app.
      change (seq 0 (S k)) with (0 :: seq 1 k).
      rewrite <- seq_shift, map_cons, map_map. simpl concat.
      f_equal. simpl. lia.
    + intros i Hi. destruct (Hpages (S i)) as (Hp & ? & ?); [lia|].
      split; [|done]. rewrite <- Hp. f_equal. simpl. lia.
Qed.

(** X1. When the remote fails on a page of the playlist listing, after
    any number of pages that announced a next page, [get_all_playlists]
    raises that error and returns none of the items fetched before; the
    resolver then raises the same error and prints nothing. *)
Theorem X1_listing_error_propagates `{T : TextLib}
    (sp : Spotify) (pages : nat → Page Playlist) (k fuel : nat) (e : exn)
    (query : string) (fuzzy_threshold : nat) (w : World) :
  (∀ i, i < k → current_user_playlists sp 50 (i * 50) = Ok (pages i)
                ∧ truthy (next (pages i)) = true) →
  current_user_playlists sp 50 (k * 50) = Fail e →
  k < fuel →
  get_all_playlists sp fuel = Raise e
  ∧ get_playlist_id_by_name sp query fuzzy_threshold fuel w = (Raise e, w).
Proof.
  intros Hpages Hfail Hfuel.
  assert (Hall : get_all_playlists sp fuel = Raise e).
  { unfold get_all_playlists.
    replace fuel with (k + S (fuel - S k)) by lia.
    rewrite (playlists_loop_prefix sp 50 pages k) by done.
    rewrite playlists_loop_S. simpl "+". by rewrite Hfail. }
  split; [done|]. by rewrite resolver_run, Hall.
Qed.

(** The listing of [flaky_remote] fails on its second page. *)
Lemma X1_witness :
  get_all_playlists flaky_remote 2 = Raise (SpotifyException "429 Too Many Requests")
  ∧ get_playlist_id_by_name (T := plain_text) flaky_remote "Alpha" 80 2 empty_world
    = (Raise (SpotifyException "429 Too Many Requests"), empty_world).
Proof.
  apply (X1_listing_error_propagates (T := plain_text) flaky_remote
           (λ _, {| items := three_playlists;
                    next := Some "https://api.spotify.com/v1/next" |}) 1 2).
  - intros i Hi. assert (i = 0) as -> by lia. split; reflexivity.
  - reflexivity.
  - lia.
Defined.

(** X2. On any remote the track loop fetches the pages at offsets 0,
    100, 200, ... as long as they are not empty and announce a next page;
    at the first page that is empty or announces none it returns the
    lines of all the items fetched, numbered through, and at a page on
    which the remote fails it raises that error. *)
Theorem X2_track_loop_on_any_remote
    (sp : Spotify) (pid : string) (pages : nat → Page Item) (k fuel : nat)
    (last : response Item) :
  (∀ i, i < k → playlist_tracks sp pid (i * 100) 100 = Ok (pages i)
                ∧ items (pages i) ≠ []
                ∧ truthy (next (pages i)) = true) →
  playlist_tracks sp pid (k * 100) 100 = last →
  match last with
  | Ok page => items page = [] ∨ truthy (next page) = false
  | Fail _ => True
  end →
  k < fuel →
  get_playlist_tracks sp pid fuel
  = match last with
    | Ok page =>
        Ret (format_items (concat (map (λ i, items (pages i)) (seq 0 k)) ++ items page))
    | Fail e => Raise e
    end.
Proof.
  intros Hpages Hlast Hstop Hfuel. unfold get_playlist_tracks.
  replace fuel with (k + S (fuel - S k)) by lia.
  rewrite (tracks_loop_prefix sp pid 100 pages k) by done.
  cbv zeta. rewrite tracks_loop_S. simpl "+". rewrite Hlast.
  destruct last as [page|e]; [|done].
  unfold format_items. rewrite fold_left_app.
  destruct (items page) as [|it its] eqn:Hit; [done|].
  destruct Hstop as [Hstop|Hstop]; [done|].
  by rewrite Hstop, <- surjective_pairing.
Qed.

(** The tracks of [flaky_remote]: two pages with a next link, then an
    empty page. *)
Lemma X2_witness :
  get_playlist_tracks flaky_remote "id-a" 3
  = Ret ["1. _Song A_ by Artist X"; "2. _Song B_ by Unknown Artist"].
Proof.
  refine (X2_track_loop_on_any_remote flaky_remote "id-a"
            (λ i, if (i =? 0)%nat
                  then {| items := take 2 round_trip_tracks;
                          next := Some "https://api.spotify.com/v1/next" |}
                  else {| items := drop 2 round_trip_tracks;
                          next := Some "https://api.spotify.com/v1/next" |})
            2 3 (Ok {| items := []; next := Some "https://api.spotify.com/v1/next" |})
            _ _ _ _).
  - intros i Hi. destruct i as [|[|i]]; [| |lia]; repeat split; simpl; discriminate.
  - reflexivity.
  - left. reflexivity.
  - lia.
Defined.

(** ** Further properties of the resolver and of the formatter *)

Lemma dict_set_keys (d : list (string * string)) (k v : string) :
  map fst (dict_set d k v)
  = if bool_decide (k ∈ map fst d) then map fst d else map fst d ++ [k].
Proof.
  induction d as [|[k' v'] d IH]; simpl; [done|].
  destruct (String.eqb_spec k' k) as [->|Hne]; simpl.
  - rewrite bool_decide_eq_true_2; [done|by left].
  - rewrite IH. destruct (decide (k ∈ map fst d)) as [Hin|Hnin].
    + rewrite !bool_decide_eq_true_2; [done| |done]. by right.
    + rewrite !bool_decide_eq_false_2; [done| |done].
      intros [?|?]%elem_of_cons; [congruence|done].
Qed.

Lemma playlist_names_snoc `{T : TextLib} (playlists : list Playlist) (p : Playlist) :
  map fst (playlist_names (playlists ++ [p]))
  = if bool_decide (read_playlist_name p ∈ map fst (playlist_names playlists))
    then map fst (playlist_names playlists)
    else map fst (playlist_names playlists) ++ [read_playlist_name p].
Proof. unfold playlist_names. rewrite fold_left_app. simpl. apply dict_set_keys. Qed.

(** X3. The candidates handed to the fuzzy search are the normalized
    names of the listing, each once, in the order in which they first
    appear: two playlists with one normalized name give one candidate. *)
Theorem X3_fuzzy_candidates_distinct `{T : TextLib} (playlists : list Playlist) :
  NoDup (map fst (playlist_names playlists))
  ∧ (∀ name, name ∈ map fst (playlist_names playlists)
             ↔ ∃ p, p ∈ playlists ∧ read_playlist_name p = name)
  ∧ map fst (playlist_names playlists)
    = reverse (remove_dups (reverse (map read_playlist_name playlists))).
Proof.
  assert (Heq : map fst (playlist_names playlists)
                = reverse (remove_dups (reverse (map read_playlist_name playlists)))).
  { induction playlists as [|p playlists IH] using rev_ind; [done|].
    rewrite playlist_names_snoc, map_app, reverse_app. simpl map.
    change (reverse [read_playlist_name p]) with [read_playlist_name p].
    simpl app. simpl remove_dups. rewrite IH.
    destruct (decide_rel elem_of (read_playlist_name p)
                (reverse (map read_playlist_name playlists))) as [Hin|Hnin].
    - rewrite bool_decide_eq_true_2; [done|].
      by rewrite elem_of_reverse, elem_of_remove_dups.
    - rewrite bool_decide_eq_false_2.
      + by rewrite reverse_cons.
      + by rewrite elem_of_reverse, elem_of_remove_dups. }
  rewrite Heq. split; [|split; [|done]].
  - rewrite reverse_Permutation. apply NoDup_remove_dups.
  - intros name. rewrite elem_of_reverse, elem_of_remove_dups, elem_of_reverse.
    rewrite list_elem_of_fmap. split.
    + intros (p & -> & Hp). by exists p.
    + intros (p & Hp & <-). by exists p.
Qed.

Lemma join_head_nonempty (sep p : string) (ps : list string) :
  p ≠ EmptyString → join sep (p :: ps) ≠ EmptyString.
Proof.
  intros Hp. destruct p as [|c p]; [done|].
  destruct ps; simpl; [done|]. by rewrite append_cons.
Qed.

Lemma artist_text_nonempty (artist : Artist) : artist_text artist ≠ EmptyString.
Proof. by destruct artist as [[[|c s]|]]. Qed.

(** X4. The artist part of a line is never empty, whatever the artist
    list holds: no artists, artists without a name, or a name that is the
    empty string. *)
Theorem X4_artist_segment_never_empty (artists : list Artist) :
  artist_names artists ≠ EmptyString
  ∧ artist_text {| artist_name := Some EmptyString |} = "Unknown Artist".
Proof.
  split; [|done]. destruct artists as [|a artists]; [done|].
  unfold artist_names. rewrite map_cons.
  apply join_head_nonempty, artist_text_nonempty.
Qed.

(** X5. Artists that all have a name are rendered by their names, in
    the order of the track record, separated by a comma and a space. *)
Theorem X5_named_artists_joined (names : list string) :
  names ≠ [] →
  Forall (λ name, name ≠ EmptyString) names →
  artist_names (map (λ name, {| artist_name := Some name |}) names) = join ", " names.
Proof.
  intros Hne Hall. unfold artist_names.
  destruct (map _ names) as [|a artists] eqn:Hmap.
  { by destruct names. }
  rewrite <- Hmap. f_equal. rewrite map_map. clear Hne Hmap.
  induction Hall as [|x l Hx _ IH]; [done|].
  simpl. rewrite IH. f_equal. by destruct x.
Qed.

(** Two named artists. *)
Lemma X5_witness :
  artist_names [ {| artist_name := Some "Simon" |}; {| artist_name := Some "Garfunkel" |} ]
  = "Simon, Garfunkel".
Proof.
  apply (X5_named_artists_joined ["Simon"; "Garfunkel"]).
  - discriminate.
  - repeat constructor; discriminate.
Defined.

(** ** Further properties of the archive writer *)

Lemma append_length (s t : string) :
  String.length (s +:+ t) = String.length s + String.length t.
Proof. induction s as [|c s IH]; [done|]. rewrite append_cons. simpl. by rewrite IH. Qed.

Lemma append_inj_r (s1 s2 t : string) : s1 +:+ t = s2 +:+ t → s1 = s2.
Proof.
  revert s2. induction s1 as [|c s1 IH]; intros [|c2 s2] Heq.
  - done.
  - apply (f_equal String.length) in Heq.
    rewrite !append_length in Heq. simpl in Heq. lia.
  - apply (f_equal String.length) in Heq.
    rewrite !append_length in Heq. simpl in Heq. lia.
  - rewrite !append_cons in Heq. injection Heq as -> Heq. f_equal. by apply IH.
Qed.

(** Every run of the writer, with the error it raises when refused. *)
Lemma save_outcomes `{T : TextLib} (playlist_name : string) (tracks : list string)
    (w : World) :
  (∃ w', save_playlist_to_markdown playlist_name tracks w
         = (Ret (output_filename playlist_name), w')
         ∧ files w' = <[output_filename playlist_name := md_content playlist_name tracks]>
                        (files w)
         ∧ stdout w' = stdout w ∧ unwritable w' = unwritable w
         ∧ dirs w' = (if bool_decide ("archive" ∈ dirs w)
                         || bool_decide (is_Some (files w !! "archive"))
                      then dirs w else {["archive"]} ∪ dirs w))
  ∨ (∃ p w', save_playlist_to_markdown playlist_name tracks w = (Raise (OSError p), w')
             ∧ (p = "archive" ∨ p = output_filename playlist_name)
             ∧ files w' = files w ∧ stdout w' = stdout w
             ∧ unwritable w' = unwritable w).
Proof.
  unfold save_playlist_to_markdown. rewrite bind_run. unfold os_path_exists.
  destruct (bool_decide ("archive" ∈ dirs w) || bool_decide (is_Some (files w !! "archive")))
    eqn:Hpresent.
  - rewrite bind_run.
    change (@mret M M_ret unit tt w) with ((Ret tt, w) : outcome unit * World).
    cbv beta iota.
    destruct (decide (output_filename playlist_name ∈ unwritable w
                      ∨ output_filename playlist_name ∈ dirs w)) as [Hno|Hyes].
    + right. rewrite write_file_refused by done. eexists _, _. split; [done|]. auto.
    + left. rewrite write_file_ok by tauto.
      eexists. split; [done|]. unfold md_content, with_files. simpl.
      by rewrite !append_assoc.
  - apply orb_false_elim in Hpresent as [Hdir Hfile].
    rewrite bind_run. unfold os_makedirs. rewrite Hdir, Hfile, !orb_false_r.
    destruct (bool_decide ("archive" ∈ unwritable w)) eqn:Harch.
    { right. eexists _, _. split; [done|]. auto. }
    set (w1 := with_dirs ({["archive"]} ∪ dirs w) w). cbv beta iota.
    destruct (decide (output_filename playlist_name ∈ unwritable w1
                      ∨ output_filename playlist_name ∈ dirs w1)) as [Hno|Hyes].
    + right. rewrite write_file_refused by done. eexists _, _. split; [done|]. auto.
    + left. rewrite write_file_ok by tauto.
      eexists. split; [done|]. unfold md_content, with_files. simpl.
      by rewrite !append_assoc.
Qed.

(** X6. The refusals of the file system come out of the writer as they
    are, before any file is touched.  When nothing is at [archive] and
    the directory cannot be made, the writer raises [OSError] for
    [archive] and the world is as it was.  When the directory is there
    or can be made and the file cannot be opened, it raises [OSError]
    for the derived path: no file has changed, nothing is printed, and
    the directory that was missing has been made and stays. *)
Theorem X6_writer_refusals `{T : TextLib}
    (playlist_name : string) (tracks : list string) (w : World) :
  ("archive" ∉ dirs w → files w !! "archive" = None → "archive" ∈ unwritable w →
   save_playlist_to_markdown playlist_name tracks w = (Raise (OSError "archive"), w))
  ∧ (output_filename playlist_name ∈ unwritable w
     ∨ output_filename playlist_name ∈ dirs w →
     ("archive" ∈ dirs w ∨ is_Some (files w !! "archive") →
      save_playlist_to_markdown playlist_name tracks w
      = (Raise (OSError (output_filename playlist_name)), w))
     ∧ ("archive" ∉ dirs w → files w !! "archive" = None → "archive" ∉ unwritable w →
        save_playlist_to_markdown playlist_name tracks w
        = (Raise (OSError (output_filename playlist_name)),
           with_dirs ({["archive"]} ∪ dirs w) w))).
Proof.
  split; [|intros Hfile; split].
  - intros Hdir Hnone Hno. unfold save_playlist_to_markdown.
    rewrite bind_run. unfold os_path_exists.
    rewrite Hnone, (bool_decide_eq_false_2 _ Hdir).
    rewrite (bool_decide_eq_false_2 (is_Some None)) by (by intros [? ?]).
    simpl orb. cbv iota. rewrite bind_run. unfold os_makedirs.
    by rewrite (bool_decide_eq_true_2 _ Hno).
  - intros Hthere. unfold save_playlist_to_markdown.
    rewrite bind_run. unfold os_path_exists.
    assert (bool_decide ("archive" ∈ dirs w) || bool_decide (is_Some (files w !! "archive"))
            = true) as ->.
    { destruct Hthere as [Hd|Hf].
      - by rewrite (bool_decide_eq_true_2 _ Hd).
      - rewrite (bool_decide_eq_true_2 _ Hf). apply orb_true_r. }
    cbv iota. rewrite bind_run.
    change (@mret M M_ret unit tt w) with ((Ret tt, w) : outcome unit * World).
    cbv beta iota. by rewrite write_file_refused.
  - intros Hdir Hnone Hcan. unfold save_playlist_to_markdown.
    rewrite bind_run. unfold os_path_exists.
    rewrite Hnone, (bool_decide_eq_false_2 _ Hdir).
    rewrite (bool_decide_eq_false_2 (is_Some None)) by (by intros [? ?]).
    simpl orb. cbv iota. rewrite bind_run. unfold os_makedirs.
    rewrite (bool_decide_eq_false_2 _ Hcan), (bool_decide_eq_false_2 _ Hdir), Hnone.
    rewrite (bool_decide_eq_false_2 (is_Some None)) by (by intros [? ?]).
    simpl orb. cbv iota. rewrite write_file_refused; [done|].
    destruct Hfile as [Hu|Hd]; [by left|right].
    simpl. apply elem_of_union_r, Hd.
Qed.

(** The archive of "Beta" cannot be opened in [locked_world], where the
    directory is still to be made. *)
Lemma X6_witness :
  save_playlist_to_markdown (T := plain_text) "Beta" ["1. a"] locked_world
  = (Raise (OSError "archive/beta_playlist_archive.md"),
     with_dirs ({["archive"]} ∪ dirs locked_world) locked_world).
Proof.
  refine (proj2 (proj2 (X6_writer_refusals (T := plain_text) "Beta" ["1. a"] locked_world)
                   _) _ _ _).
  - left. vm_compute. reflexivity.
  - vm_compute. intros H. inversion H.
  - reflexivity.
  - vm_compute. intros H. inversion H.
Defined.

(** X7. Where the file system takes the directory and the file and no
    regular file is in the way of the directory, the writer leaves the
    directory [archive] in place: it creates it when missing and changes
    nothing about the directories when it is there already. *)
Theorem X7_archive_directory_ensured `{T : TextLib}
    (playlist_name : string) (tracks : list string) (w : World) :
  can_archive w playlist_name →
  files w !! "archive" = None →
  ∃ w', save_playlist_to_markdown playlist_name tracks w
        = (Ret (output_filename playlist_name), w')
        ∧ "archive" ∈ dirs w'
        ∧ dirs w' = {["archive"]} ∪ dirs w
        ∧ ("archive" ∈ dirs w → dirs w' = dirs w).
Proof.
  intros Hcan Hfile.
  destruct (save_outcomes playlist_name tracks w)
    as [(w' & Hrun & _ & _ & _ & Hd)|(p & w' & Hrun & _)].
  - exists w'. split; [done|]. rewrite Hd, Hfile.
    rewrite (bool_decide_eq_false_2 (is_Some None)) by (by intros [? ?]).
    rewrite orb_false_r. destruct (decide ("archive" ∈ dirs w)) as [Hin|Hnin].
    + rewrite bool_decide_eq_true_2 by done.
      split; [done|]. split; [|done].
      apply leibniz_equiv. intros x. rewrite elem_of_union, elem_of_singleton.
      split; [by right|]. by intros [->|?].
    + rewrite bool_decide_eq_false_2 by done.
      split; [|done]. apply elem_of_union_l. by apply elem_of_singleton.
  - destruct (save_ok playlist_name tracks w Hcan) as (w2 & Hok & _). congruence.
Qed.

(** The first archive written from the empty world. *)
Lemma X7_witness :
  ∃ w', save_playlist_to_markdown (T := plain_text) "Mix" ["1. a"] empty_world
        = (Ret "archive/mix_playlist_archive.md", w')
        ∧ "archive" ∈ dirs w'
        ∧ dirs w' = {["archive"]} ∪ dirs empty_world
        ∧ ("archive" ∈ dirs empty_world → dirs w' = dirs empty_world).
Proof.
  refine (X7_archive_directory_ensured (T := plain_text) "Mix" ["1. a"] empty_world _ _).
  - unfold can_archive. vm_compute. repeat split; intros H; inversion H.
  - reflexivity.
Defined.

Lemma output_filename_inj `{T : TextLib} (name1 name2 : string) :
  output_filename name1 = output_filename name2
  ↔ lower (replace_space name1) = lower (replace_space name2).
Proof.
  unfold output_filename. split; [|by intros ->].
  intros Heq. rewrite <- !append_assoc in Heq.
  apply append_inj_r in Heq. by apply (inj (String.append _)) in Heq.
Qed.

Lemma has_path_separator_app (s1 s2 : string) :
  has_path_separator (s1 +:+ s2) = has_path_separator s1 || has_path_separator s2.
Proof.
  induction s1 as [|c s1 IH]; [done|].
  rewrite append_cons. simpl. rewrite IH. apply orb_assoc.
Qed.

Lemma output_filename_entry `{T : TextLib} (playlist_name : string) :
  plain_entry playlist_name →
  output_filename playlist_name = "archive/" +:+ archive_entry playlist_name
  ∧ has_path_separator (archive_entry playlist_name) = false.
Proof.
  unfold plain_entry, archive_entry, output_filename. intros Hslug. split.
  - by rewrite <- !append_assoc.
  - by rewrite has_path_separator_app, Hslug.
Qed.

(** X8. For playlist names whose form once spaces are replaced by
    underscores and the result is lowercased holds no [/], each archive
    path names an entry of the directory [archive] itself; when those
    forms differ the entries differ, and archiving the one and then the
    other leaves both documents in place, each under its entry. *)
Theorem X8_distinct_slugs_keep_both `{T : TextLib}
    (w : World) (name1 name2 : string) (tracks1 tracks2 : list string) :
  can_archive w name1 → can_archive w name2 →
  plain_entry name1 → plain_entry name2 →
  lower (replace_space name1) ≠ lower (replace_space name2) →
  output_filename name1 = "archive/" +:+ archive_entry name1
  ∧ output_filename name2 = "archive/" +:+ archive_entry name2
  ∧ has_path_separator (archive_entry name1) = false
  ∧ has_path_separator (archive_entry name2) = false
  ∧ archive_entry name1 ≠ archive_entry name2
  ∧ ∃ w1 w2,
      save_playlist_to_markdown name1 tracks1 w = (Ret (output_filename name1), w1)
      ∧ save_playlist_to_markdown name2 tracks2 w1 = (Ret (output_filename name2), w2)
      ∧ files w2 !! output_filename name1 = Some (md_content name1 tracks1)
      ∧ files w2 !! output_filename name2 = Some (md_content name2 tracks2).
Proof.
  intros Hcan1 Hcan2 Hplain1 Hplain2 Hslug.
  destruct (output_filename_entry name1 Hplain1) as [Hpath1 Hentry1].
  destruct (output_filename_entry name2 Hplain2) as [Hpath2 Hentry2].
  assert (Hne : output_filename name1 ≠ output_filename name2).
  { by rewrite output_filename_inj. }
  repeat (split; [done|]).
  split. { intros Heq. apply Hne. by rewrite Hpath1, Hpath2, Heq. }
  destruct (save_ok name1 tracks1 w Hcan1) as (w1 & Hrun1 & Hf1 & _ & Hu1 & _ & Hd1).
  pose proof (can_archive_after_save name2 w w1 Hcan2 Hu1 Hd1) as Hcan2'.
  destruct (save_ok name2 tracks2 w1 Hcan2') as (w2 & Hrun2 & Hf2 & _).
  exists w1, w2. repeat split; [done..| |].
  - rewrite Hf2, lookup_insert_ne, Hf1 by done. apply lookup_insert_eq.
  - rewrite Hf2. apply lookup_insert_eq.
Qed.

(** Two playlists with different names. *)
Lemma X8_witness :
  @output_filename plain_text "Road Trip"
  = "archive/" +:+ @archive_entry plain_text "Road Trip"
  ∧ @output_filename plain_text "Workout"
    = "archive/" +:+ @archive_entry plain_text "Workout"
  ∧ has_path_separator (@archive_entry plain_text "Road Trip") = false
  ∧ has_path_separator (@archive_entry plain_text "Workout") = false
  ∧ @archive_entry plain_text "Road Trip" ≠ @archive_entry plain_text "Workout"
  ∧ ∃ w1 w2,
      save_playlist_to_markdown (T := plain_text) "Road Trip" ["1. a"] empty_world
      = (Ret (@output_filename plain_text "Road Trip"), w1)
      ∧ save_playlist_to_markdown (T := plain_text) "Workout" ["1. b"] w1
        = (Ret (@output_filename plain_text "Workout"), w2)
      ∧ files w2 !! @output_filename plain_text "Road Trip"
        = Some (md_content "Road Trip" ["1. a"])
      ∧ files w2 !! @output_filename plain_text "Workout"
        = Some (md_content "Workout" ["1. b"]).
Proof.
  refine (X8_distinct_slugs_keep_both (T := plain_text) empty_world "Road Trip" "Workout"
            ["1. a"] ["1. b"] _ _ _ _ _).
  - unfold can_archive. vm_compute. repeat split; intros H; inversion H.
  - unfold can_archive. vm_compute. repeat split; intros H; inversion H.
  - vm_compute. reflexivity.
  - vm_compute. reflexivity.
  - vm_compute. discriminate.
Defined.

(** X9. Playlist names that differ only by case, or by spaces against
    underscores, share one archive file: archiving the one and then the
    other leaves a single document, the one of the second playlist under
    the heading of its name, and nothing of the first. *)
Theorem X9_colliding_names_overwrite `{T : TextLib}
    (w : World) (name1 name2 : string) (tracks1 tracks2 : list string) :
  can_archive w name1 →
  lower (replace_space name1) = lower (replace_space name2) →
  output_filename name1 = output_filename name2
  ∧ ∃ w1 w2,
      save_playlist_to_markdown name1 tracks1 w = (Ret (output_filename name1), w1)
      ∧ save_playlist_to_markdown name2 tracks2 w1 = (Ret (output_filename name1), w2)
      ∧ files w2 = <[output_filename name1 := md_content name2 tracks2]> (files w).
Proof.
  intros Hcan1 Hslug.
  assert (Heq : output_filename name1 = output_filename name2).
  { by rewrite output_filename_inj. }
  split; [done|].
  assert (Hcan2 : can_archive w name2).
  { unfold can_archive in *. by rewrite <- Heq. }
  destruct (save_ok name1 tracks1 w Hcan1) as (w1 & Hrun1 & Hf1 & _ & Hu1 & _ & Hd1).
  pose proof (can_archive_after_save name2 w w1 Hcan2 Hu1 Hd1) as Hcan2'.
  destruct (save_ok name2 tracks2 w1 Hcan2') as (w2 & Hrun2 & Hf2 & _).
  exists w1, w2. rewrite Heq. repeat split; [by rewrite <- Heq|done|].
  by rewrite Hf2, Hf1, Heq, insert_insert_eq.
Qed.

(** "My List" and "my_list" collide. *)
Lemma X9_witness :
  @output_filename plain_text "My List" = @output_filename plain_text "my_list"
  ∧ ∃ w1 w2,
      save_playlist_to_markdown (T := plain_text) "My List" ["1. a"; "2. b"] empty_world
      = (Ret (@output_filename plain_text "My List"), w1)
      ∧ save_playlist_to_markdown (T := plain_text) "my_list" ["1. c"] w1
        = (Ret (@output_filename plain_text "My List"), w2)
      ∧ files w2
        = <[@output_filename plain_text "My List" := md_content "my_list" ["1. c"]]>
            (files empty_world).
Proof.
  refine (X9_colliding_names_overwrite (T := plain_text) empty_world "My List" "my_list"
            ["1. a"; "2. b"] ["1. c"] _ _).
  - unfold can_archive. vm_compute. repeat split; intros H; inversion H.
  - vm_compute. reflexivity.
Defined.

(** ** Whole runs of the handlers *)

Lemma resolved_Some `{T : TextLib} (playlists : list Playlist) (name : string)
    (playlist : Playlist) :
  resolved playlists name = Some playlist →
  List.find (exact_match name) playlists = Some playlist
  ∧ truthy (Some (pl_id playlist)) = true.
Proof.
  unfold resolved. destruct (List.find _ playlists) as [p|]; [|done].
  destruct (truthy (Some (pl_id p))) eqn:Hid; [|done]. by intros [= <-].
Qed.

Lemma can_archive_frame `{T : TextLib} (name : string) (w w' : World) :
  unwritable w' = unwritable w → dirs w' = dirs w →
  can_archive w name → can_archive w' name.
Proof. unfold can_archive. by intros -> ->. Qed.

Lemma dirs_grow_trans (d0 d1 d2 : gset string) :
  d1 ⊆ {["archive"]} ∪ d0 → d2 ⊆ {["archive"]} ∪ d1 → d2 ⊆ {["archive"]} ∪ d0.
Proof.
  intros H1 H2 x Hx. apply H2 in Hx.
  apply elem_of_union in Hx as [Hx|Hx]; [by apply elem_of_union_l|by apply H1].
Qed.

(** X10. The single archive command, given a name that is not empty and
    resolves to a playlist whose tracks can be fetched, writes the
    document under the name as it was typed (path and heading), not under
    the name the playlist has on the remote, and prints one line that
    tells the path. *)
Theorem X10_archive_command_uses_typed_name `{T : TextLib}
    (sp : Spotify) (name : string) (fuel : nat) (w : World)
    (playlists : list Playlist) (playlist : Playlist) (tracks : list string) :
  name ≠ EmptyString →
  get_all_playlists sp fuel = Ret playlists →
  resolved playlists name = Some playlist →
  get_playlist_tracks sp (pl_id playlist) fuel = Ret tracks →
  can_archive w name →
  ∃ w', handle_archive_playlist sp name fuel w = (Ret tt, w')
        ∧ files w' = <[output_filename name := md_content name tracks]> (files w)
        ∧ stdout w'
          = stdout w ++ ["Playlist '" +:+ name +:+ "' has been archived successfully to "
                         +:+ output_filename name].
Proof.
  intros Hname Hlist Hres Htracks Hcan.
  apply resolved_Some in Hres as [Hfind Hid].
  unfold handle_archive_playlist. destruct name as [|c name]; [done|].
  rewrite bind_run, resolver_run, Hlist, Hfind. cbv beta iota. rewrite Hid.
  rewrite bind_run. unfold lift. simpl default. rewrite Htracks.
  rewrite bind_run.
  destruct (save_ok (String c name) tracks w Hcan) as (w' & -> & Hf & Ho & _).
  eexists. split; [reflexivity|]. simpl. by rewrite Hf, Ho.
Qed.

(** The name is typed in lower case; the playlist is "ROCK". *)
Lemma X10_witness :
  ∃ w', handle_archive_playlist (T := plain_text)
          (serve [ {| pl_id := "p2"; pl_name := "ROCK" |} ] (λ _, round_trip_tracks))
          "rock" 1 empty_world
        = (Ret tt, w')
        ∧ files w'
          = <["archive/rock_playlist_archive.md" :=
               "# rock Song Archive" +:+ nl +:+ nl +:+ "1. _Song A_ by Artist X" +:+ nl
               +:+ "2. _Song B_ by Unknown Artist" +:+ nl]> (files empty_world)
        ∧ stdout w'
          = stdout empty_world
            ++ ["Playlist 'rock' has been archived successfully to "
                +:+ "archive/rock_playlist_archive.md"].
Proof.
  refine (X10_archive_command_uses_typed_name (T := plain_text)
            (serve [ {| pl_id := "p2"; pl_name := "ROCK" |} ] (λ _, round_trip_tracks))
            "rock" 1 empty_world [ {| pl_id := "p2"; pl_name := "ROCK" |} ]
            {| pl_id := "p2"; pl_name := "ROCK" |}
            ["1. _Song A_ by Artist X"; "2. _Song B_ by Unknown Artist"] _ _ _ _ _).
  - discriminate.
  - reflexivity.
  - vm_compute. reflexivity.
  - reflexivity.
  - unfold can_archive. vm_compute. repeat split; intros H; inversion H.
Defined.

Lemma batch_loop_ok `{T : TextLib} (sp : Spotify) (fuel : nat) (playlists : list Playlist) :
  get_all_playlists sp fuel = Ret playlists →
  ∀ (names : list string) (w : World),
    (∀ name playlist, name ∈ names → resolved playlists name = Some playlist →
       ∃ tracks, get_playlist_tracks sp (pl_id playlist) fuel = Ret tracks) →
    (∀ name playlist, name ∈ names → resolved playlists name = Some playlist →
       can_archive w name) →
    ∃ w', for_each names (archive_batch_item sp fuel) w = (Ret tt, w')
          ∧ stdout w' = stdout w ++ concat (map (turn_lines playlists) names)
          ∧ files w' = fold_left (batch_turn_files sp fuel playlists) names (files w)
          ∧ unwritable w' = unwritable w
          ∧ dirs w' ⊆ {["archive"]} ∪ dirs w.
Proof.
  intros Hlist names.
  induction names as [|name names IH]; intros w Hfetch Hcan.
  - exists w. simpl. rewrite app_nil_r. repeat split. apply union_subseteq_r.
  - rewrite for_each_cons, batch_item_run, Hlist. cbv zeta.
    set (w1 := with_stdout (stdout w ++ [archiving_message name]) w).
    destruct (resolved playlists name) as [playlist|] eqn:Hres.
    + destruct (Hfetch name playlist) as [tracks Htracks]; [by left|done|].
      rewrite Htracks.
      assert (Hcan1 : can_archive w1 name).
      { apply (can_archive_frame name w); [done..|]. apply (Hcan name playlist); [by left|done]. }
      destruct (save_ok name tracks w1 Hcan1) as (w2 & -> & Hf2 & Ho2 & Hu2 & _ & Hd2).
      set (w3 := with_stdout (stdout w2 ++ [success_message name]) w2).
      destruct (IH w3) as (w' & Hrun & Ho & Hf & Hu & Hd).
      { intros n pl Hn. apply Hfetch. by right. }
      { intros n pl Hn Hr. apply (can_archive_after_save n w w3); [|done..].
        apply (Hcan n pl); [by right|done]. }
      exists w'. split; [done|]. repeat split.
      * rewrite Ho. subst w3 w1. simpl. rewrite Ho2. simpl.
        unfold turn_lines at 2. rewrite Hres. by rewrite <- !app_assoc.
      * rewrite Hf. subst w3 w1. simpl. rewrite Hf2. simpl. f_equal.
        unfold batch_turn_files, fetched_lines. by rewrite Hres, Htracks.
      * by rewrite Hu.
      * by apply (dirs_grow_trans (dirs w) (dirs w3)).
    + set (w3 := with_stdout (stdout w1 ++ skip_lines playlists name) w1).
      destruct (IH w3) as (w' & Hrun & Ho & Hf & Hu & Hd).
      { intros n pl Hn. apply Hfetch. by right. }
      { intros n pl Hn Hr. apply (can_archive_frame n w); [done..|].
        apply (Hcan n pl); [by right|done]. }
      exists w'. split; [done|]. repeat split; [| |done..].
      * rewrite Ho. subst w3 w1. simpl.
        unfold turn_lines at 2. rewrite Hres. by rewrite <- !app_assoc.
      * rewrite Hf. subst w3 w1. simpl. f_equal.
        unfold batch_turn_files. by rewrite Hres.
Qed.

(** X11. When the listing can be fetched and every name of the batch
    that resolves can have its tracks fetched and its archive written,
    the named batch returns; it prints, name by name in the order of the
    input, the announcement followed by the success message or by the
    suggestions and the skip report; and the files are those before the
    batch with, in the same order, the document of each resolved name put
    at the path of that name. *)
Theorem X11_named_batch_run `{T : TextLib}
    (sp : Spotify) (fuel : nat) (playlists : list Playlist)
    (names : list string) (w : World) :
  names ≠ [] →
  get_all_playlists sp fuel = Ret playlists →
  (∀ name playlist, name ∈ names → resolved playlists name = Some playlist →
     ∃ tracks, get_playlist_tracks sp (pl_id playlist) fuel = Ret tracks) →
  (∀ name playlist, name ∈ names → resolved playlists name = Some playlist →
     can_archive w name) →
  ∃ w', handle_archive_batch sp names fuel w = (Ret tt, w')
        ∧ stdout w' = stdout w ++ concat (map (turn_lines playlists) names)
        ∧ files w' = fold_left (batch_turn_files sp fuel playlists) names (files w).
Proof.
  intros Hne Hlist Hfetch Hcan.
  destruct (batch_loop_ok sp fuel playlists Hlist names w Hfetch Hcan)
    as (w' & Hrun & Ho & Hf & _).
  exists w'. split; [|done]. unfold handle_archive_batch. by destruct names.
Qed.

(** The batch "GhostList", "RealList" against the remote that lists only
    "RealList". *)
Lemma X11_witness :
  ∃ w', handle_archive_batch (T := plain_text) real_list_remote ["GhostList"; "RealList"] 1
                             empty_world
        = (Ret tt, w')
        ∧ stdout w'
          = stdout empty_world
            ++ concat (map (turn_lines (T := plain_text)
                              [ {| pl_id := "id-real"; pl_name := "RealList" |} ])
                           ["GhostList"; "RealList"])
        ∧ files w'
          = fold_left (batch_turn_files (T := plain_text) real_list_remote 1
                         [ {| pl_id := "id-real"; pl_name := "RealList" |} ])
                      ["GhostList"; "RealList"] (files empty_world).
Proof.
  refine (X11_named_batch_run (T := plain_text) real_list_remote 1
            [ {| pl_id := "id-real"; pl_name := "RealList" |} ]
            ["GhostList"; "RealList"] empty_world _ _ _ _).
  - discriminate.
  - reflexivity.
  - intros name playlist _ _. eexists. reflexivity.
  - intros name playlist _ _. unfold can_archive. simpl.
    repeat split; apply not_elem_of_empty.
Defined.

Lemma all_loop_ok `{T : TextLib} (sp : Spotify) (fuel : nat) :
  ∀ (playlists : list Playlist) (w : World),
    (∀ playlist, playlist ∈ playlists →
       ∃ tracks, get_playlist_tracks sp (pl_id playlist) fuel = Ret tracks) →
    (∀ playlist, playlist ∈ playlists → can_archive w (pl_name playlist)) →
    ∃ w', for_each playlists (archive_all_item sp fuel) w = (Ret tt, w')
          ∧ stdout w' = stdout w
          ∧ files w' = fold_left (all_turn_files sp fuel) playlists (files w)
          ∧ unwritable w' = unwritable w
          ∧ dirs w' ⊆ {["archive"]} ∪ dirs w.
Proof.
  intros playlists.
  induction playlists as [|playlist playlists IH]; intros w Hfetch Hcan.
  - exists w. simpl. repeat split. apply union_subseteq_r.
  - rewrite for_each_cons, all_item_run.
    destruct (Hfetch playlist) as [tracks Htracks]; [by left|]. rewrite Htracks.
    destruct (save_ok (pl_name playlist) tracks w) as (w2 & -> & Hf2 & Ho2 & Hu2 & _ & Hd2).
    { apply Hcan. by left. }
    destruct (IH w2) as (w' & Hrun & Ho & Hf & Hu & Hd).
    { intros pl Hpl. apply Hfetch. by right. }
    { intros pl Hpl. apply (can_archive_after_save _ w w2); [|done..].
      apply Hcan. by right. }
    exists w'. split; [done|]. repeat split.
    + by rewrite Ho.
    + rewrite Hf, Hf2. simpl. f_equal. unfold all_turn_files, fetched_lines.
      by rewrite Htracks.
    + by rewrite Hu.
    + by apply (dirs_grow_trans (dirs w) (dirs w2)).
Qed.

Lemma all_fold_keeps (sp : Spotify) `{T : TextLib} (fuel : nat) (playlists : list Playlist)
    (f : gmap string string) (p : string) :
  is_Some (f !! p) → is_Some (fold_left (all_turn_files sp fuel) playlists f !! p).
Proof.
  revert f. induction playlists as [|pl playlists IH]; intros f Hf; [done|].
  simpl. apply IH. unfold all_turn_files. apply lookup_insert_is_Some'. by right.
Qed.

(** X12. When the listing and the tracks of each of its playlists can be
    fetched and each archive can be written, [handle_archive_all]
    returns, its only print is the final report ("No playlists found."
    for an empty listing, otherwise the number of playlists of the
    listing), the files are those before it with the document of each
    playlist put at its path in listing order, and so every playlist of
    the listing has a file. *)
Theorem X12_archive_all_run `{T : TextLib}
    (sp : Spotify) (fuel : nat) (playlists : list Playlist) (w : World) :
  get_all_playlists sp fuel = Ret playlists →
  (∀ playlist, playlist ∈ playlists →
     ∃ tracks, get_playlist_tracks sp (pl_id playlist) fuel = Ret tracks) →
  (∀ playlist, playlist ∈ playlists → can_archive w (pl_name playlist)) →
  ∃ w', handle_archive_all sp fuel w = (Ret tt, w')
        ∧ stdout w' = stdout w ++ [archive_all_report playlists]
        ∧ files w' = fold_left (all_turn_files sp fuel) playlists (files w)
        ∧ ∀ playlist, playlist ∈ playlists →
            is_Some (files w' !! output_filename (pl_name playlist)).
Proof.
  intros Hlist Hfetch Hcan.
  destruct (all_loop_ok sp fuel playlists w Hfetch Hcan) as (w' & Hrun & Ho & Hf & _).
  unfold handle_archive_all. rewrite bind_run. unfold lift. rewrite Hlist.
  destruct playlists as [|playlist playlists].
  - eexists. split; [reflexivity|]. simpl. repeat split.
    intros pl Hpl. by apply not_elem_of_nil in Hpl.
  - rewrite bind_run, Hrun.
    eexists. split; [reflexivity|]. simpl stdout. simpl files. rewrite Ho, Hf.
    repeat split. clear -T. intros pl Hpl.
    generalize (files w). induction (playlist :: playlists) as [|q l IH]; intros f.
    + by apply not_elem_of_nil in Hpl.
    + simpl. apply elem_of_cons in Hpl as [->|Hpl].
      * apply all_fold_keeps. unfold all_turn_files.
        apply lookup_insert_is_Some'. by left.
      * by apply IH.
Qed.

(** The three playlists of [three_playlists], each with the round-trip
    tracks. *)
Lemma X12_witness :
  ∃ w', handle_archive_all (T := plain_text)
          (serve three_playlists (λ _, round_trip_tracks)) 1 empty_world
        = (Ret tt, w')
        ∧ stdout w' = stdout empty_world ++ [archive_all_report three_playlists]
        ∧ files w'
          = fold_left (all_turn_files (T := plain_text)
                         (serve three_playlists (λ _, round_trip_tracks)) 1)
                      three_playlists (files empty_world)
        ∧ ∀ playlist, playlist ∈ three_playlists →
            is_Some (files w' !! @output_filename plain_text (pl_name playlist)).
Proof.
  refine (X12_archive_all_run (T := plain_text)
            (serve three_playlists (λ _, round_trip_tracks)) 1 three_playlists
            empty_world _ _ _).
  - reflexivity.
  - intros playlist _. eexists. reflexivity.
  - intros playlist _. unfold can_archive. simpl.
    repeat split; apply not_elem_of_empty.
Defined.

(** ** The batch file *)

Lemma batch_path_run `{T : TextLib} (sp : Spotify) (user_input : string) (fuel : nat)
    (w : World) :
  handle_archive_batch_path sp user_input fuel w
  = if endswith user_input ".batch" then
      match files w !! user_input with
      | Some text => handle_archive_batch sp (batch_names text) fuel w
      | None =>
          if bool_decide (user_input ∈ dirs w)
          then (Raise (OSError user_input), w)
          else (Raise (PlaylistArchiverError
                         ("Batch file '" +:+ user_input
                          +:+ "' does not exist. Please try again.")), w)
      end
    else (Raise (PlaylistArchiverError "Invalid batch file. Please try again."),
          with_stdout
            (stdout w ++ ["Please enter a valid playlist batch filepath after archive-batch."])
            w).
Proof.
  unfold handle_archive_batch_path.
  destruct (endswith user_input ".batch") eqn:Hend.
  - assert (truthy (Some user_input) = true) as ->.
    { destruct user_input; [discriminate Hend|done]. }
    change (true && true) with true. cbv iota. rewrite bind_run. unfold os_path_exists.
    destruct (files w !! user_input) as [text|] eqn:Hfile.
    + rewrite (bool_decide_eq_true_2 (is_Some (Some text))) by by eexists.
      rewrite orb_true_r. cbv beta iota. rewrite bind_run. unfold read_text.
      by rewrite Hfile.
    + rewrite (bool_decide_eq_false_2 (is_Some None)) by (by intros [? ?]).
      rewrite orb_false_r. destruct (bool_decide (user_input ∈ dirs w)); [|done].
      cbv beta iota. rewrite bind_run. unfold read_text. by rewrite Hfile.
  - by rewrite andb_false_r.
Qed.

(** X13. The batch command checks its argument before anything else: a
    path that does not end in [.batch] (the empty one too) is answered
    by a hint and the error "Invalid batch file"; a path at which nothing
    exists by the error that the batch file does not exist; a file
    without any name by the error that no playlist names were found.  In
    these cases no file changes and the remote is not asked, so they hold
    for every remote and any fuel. *)
Theorem X13_batch_argument_checks `{T : TextLib}
    (sp : Spotify) (user_input : string) (fuel : nat) (w : World) :
  (endswith user_input ".batch" = false →
   handle_archive_batch_path sp user_input fuel w
   = (Raise (PlaylistArchiverError "Invalid batch file. Please try again."),
      with_stdout
        (stdout w ++ ["Please enter a valid playlist batch filepath after archive-batch."])
        w))
  ∧ (endswith user_input ".batch" = true →
     files w !! user_input = None → user_input ∉ dirs w →
     handle_archive_batch_path sp user_input fuel w
     = (Raise (PlaylistArchiverError
                 ("Batch file '" +:+ user_input +:+ "' does not exist. Please try again.")),
        w))
  ∧ (∀ text,
       endswith user_input ".batch" = true →
       files w !! user_input = Some text →
       batch_names text = [] →
       handle_archive_batch_path sp user_input fuel w
       = (Raise (PlaylistArchiverError "No playlist names found in the batch file."), w)).
Proof.
  rewrite batch_path_run. repeat split.
  - by intros ->.
  - intros -> -> Hdir. by rewrite bool_decide_eq_false_2.
  - intros text -> -> ->. done.
Qed.

Lemma text_lines_line (line rest : string) :
  no_line_break line = true →
  text_lines (line +:+ nl +:+ rest) = (line +:+ nl) :: text_lines rest.
Proof.
  induction line as [|c line IH]; intros Hline; [done|].
  simpl in Hline. apply andb_true_iff in Hline as [Hc Hline].
  apply negb_true_iff, orb_false_iff in Hc as [Hlf Hcr].
  rewrite !append_cons. cbn [text_lines]. rewrite Hlf, Hcr. by rewrite (IH Hline).
Qed.

Lemma rstrip_nl (s : string) : Ascii7.rstrip (s +:+ nl) = Ascii7.rstrip s.
Proof.
  induction s as [|c s IH]; [done|]. rewrite append_cons. simpl. by rewrite IH.
Qed.

Lemma lstrip_nl (s : string) :
  Ascii7.lstrip (s +:+ nl)
  = match Ascii7.lstrip s with
    | EmptyString => EmptyString
    | String c r => String c r +:+ nl
    end.
Proof.
  induction s as [|c s IH]; [done|]. rewrite append_cons. simpl.
  destruct (Ascii7.is_space c); [done|]. by rewrite append_cons.
Qed.

Lemma strip_nl (s : string) : Ascii7.strip (s +:+ nl) = Ascii7.strip s.
Proof.
  unfold Ascii7.strip. rewrite lstrip_nl.
  destruct (Ascii7.lstrip s); [done|]. apply rstrip_nl.
Qed.

Lemma batch_names_line `{T : TextLib} (line rest : string) :
  no_line_break line = true →
  batch_names (line +:+ nl +:+ rest)
  = match strip (line +:+ nl) with
    | EmptyString => []
    | name => [name]
    end ++ batch_names rest.
Proof. intros Hline. unfold batch_names. by rewrite text_lines_line. Qed.

(** X14. On ASCII text, a batch file written one entry per line gives
    back the entries stripped of the white space around them, without
    the entries that are empty or blank, in the order of the file; so a
    list of names that are not empty and carry no white space around
    them is read back as it was written. *)
Theorem X14_batch_file_round_trip
    (scorer : string → list string → nat → nat → list (string * nat))
    (entries : list string) :
  Forall (λ entry, no_line_break entry = true) entries →
  batch_names (T := ascii_text scorer) (lines_text entries)
  = filter (λ name, name ≠ EmptyString) (map Ascii7.strip entries)
  ∧ (Forall (λ entry, entry ≠ EmptyString ∧ Ascii7.strip entry = entry) entries →
     batch_names (T := ascii_text scorer) (lines_text entries) = entries).
Proof.
  intros Hlines.
  assert (Hnames : batch_names (T := ascii_text scorer) (lines_text entries)
                   = filter (λ name, name ≠ EmptyString) (map Ascii7.strip entries)).
  { induction Hlines as [|entry entries Hentry _ IH]; [done|].
    change (lines_text (entry :: entries)) with (entry +:+ nl +:+ lines_text entries).
    rewrite batch_names_line, IH by done.
    change (@strip (ascii_text scorer) (entry +:+ nl)) with (Ascii7.strip (entry +:+ nl)).
    rewrite strip_nl, map_cons. destruct (Ascii7.strip entry) as [|c s].
    - by rewrite filter_cons_False by (by intros []).
    - by rewrite filter_cons_True. }
  split; [done|]. intros Hclean. rewrite Hnames. clear Hlines Hnames.
  induction Hclean as [|entry entries [Hne Hstrip] _ IH]; [done|].
  rewrite map_cons, Hstrip, filter_cons_True by done. by rewrite IH.
Qed.

(** Three names, the second with spaces inside. *)
Lemma X14_witness :
  batch_names (T := plain_text)
    ("Road Trip" +:+ nl +:+ "Late Night Jazz" +:+ nl +:+ "Workout" +:+ nl)
  = ["Road Trip"; "Late Night Jazz"; "Workout"].
Proof.
  refine (proj2 (X14_batch_file_round_trip no_scorer
                   ["Road Trip"; "Late Night Jazz"; "Workout"] _) _).
  - repeat constructor.
  - repeat constructor; discriminate.
Defined.

(** ** The command loop *)






Lemma turn_never_end_of_input `{T : TextLib} `{H : Host}
    (commands : string → option command) (line : string) (s s' : Session) :
  get_user_input_turn commands line s ≠ (Some EndOfInput, s').
Proof.
  unfold get_user_input_turn.
  destruct (strip line); [done|]. destruct (split _) as [|cmd words]; [done|].
  destruct (commands cmd) as [[code|h]|]; [done| |].
  - destruct (h _ _ _) as [[[[]|e|] w'] shown]; [done| |done].
    by destruct (console_print_all _ shown) as [[] shown'].
  - by destruct (console_print_all _ _) as [[] shown'].
Qed.

(** X16. A line whose first word is bound to leaving the process ends
    the loop at once: the lines typed after it are not read, and the
    session is the one that the lines before it have left. *)
Theorem X16_quit_ends_the_session `{T : TextLib} `{H : Host}
    (commands : string → option command) (pre rest : list string) (line cmd : string)
    (words : list string) (code : nat) (s s' : Session) :
  get_user_input commands pre s = (EndOfInput, s') →
  strip line ≠ EmptyString →
  split (strip line) = cmd :: words →
  commands cmd = Some (Quit code) →
  get_user_input commands (pre ++ line :: rest) s = (Exited code, s').
Proof.
  intros Hpre Hline Hparts Hcmd. revert s Hpre.
  induction pre as [|l pre IH]; intros s Hpre.
  - simpl in *. injection Hpre as <-. unfold get_user_input_turn.
    destruct (strip line); [done|]. by rewrite Hparts, Hcmd.
  - simpl in *.
    destruct (get_user_input_turn commands l s) as [[e|] s1] eqn:Hturn; [|by apply IH].
    injection Hpre as -> ->. by apply turn_never_end_of_input in Hturn.
Qed.

(** *** No command hangs unless a pagination loop does *)

Section NoHang.

Context {T : TextLib} {H : Host}.
Variable sp : Spotify.
Variable fuel : nat.
Hypothesis listing_ends : get_all_playlists sp fuel ≠ OutOfFuel.
Hypothesis tracks_end : ∀ playlist_id, get_playlist_tracks sp playlist_id fuel ≠ OutOfFuel.












End NoHang.



(** *** Words on ASCII text *)






(** Two lines, then [q], then a line that is never read. *)
Lemma X16_witness :
  get_user_input (T := plain_text) (H := plain_host)
    (COMMANDS (T := plain_text) (H := plain_host) real_list_remote 1)
    (["help"; "archive RealList"] ++ " q  now" :: ["archive-all"]) fresh_session
  = (Exited 0,
     (get_user_input (T := plain_text) (H := plain_host)
        (COMMANDS (T := plain_text) (H := plain_host) real_list_remote 1)
        ["help"; "archive RealList"] fresh_session).2).
Proof.
  apply (X16_quit_ends_the_session (T := plain_text) (H := plain_host)
           (COMMANDS (T := plain_text) (H := plain_host) real_list_remote 1)
           ["help"; "archive RealList"] ["archive-all"] " q  now" "q" ["now"] 0).
  - vm_compute. reflexivity.
  - vm_compute. discriminate.
  - vm_compute. reflexivity.
  - reflexivity.
Defined.


(** A line that the console cannot echo ends the session: the first word
    of the second line is no command and holds a closing tag, so [q] on
    the third line is never read. *)
Example unknown_command_markup_ends_session :
  (get_user_input (T := plain_text) (H := plain_host)
     (COMMANDS (T := plain_text) (H := plain_host) real_list_remote 1)
     ["help"; "[/b]"; "q"] fresh_session).1 = MarkupFailure
  ∧ (get_user_input (T := plain_text) (H := plain_host)
       (COMMANDS (T := plain_text) (H := plain_host) real_list_remote 1)
       ["help"; "[b]"; "q"] fresh_session).1 = Exited 0.
Proof. split; vm_compute; reflexivity. Qed.

(** *** The commands that show and the archive command in the loop *)

Lemma find_none_all {A} (f : A → bool) (l : list A) :
  (∀ x, x ∈ l → f x = false) → List.find f l = None.
Proof.
  induction l as [|x l IH]; intros Hall; [done|]. simpl.
  rewrite (Hall x) by apply list_elem_of_here.
  apply IH. intros y Hy. apply Hall. by apply list_elem_of_further.
Qed.

Lemma find_first_app {A} (f : A → bool) (pre post : list A) (x : A) :
  (∀ y, y ∈ pre → f y = false) → f x = true → List.find f (pre ++ x :: post) = Some x.
Proof.
  induction pre as [|y pre IH]; intros Hpre Hx; simpl.
  - by rewrite Hx.
  - rewrite (Hpre y) by apply list_elem_of_here.
    apply IH; [|done]. intros z Hz. apply Hpre. by apply list_elem_of_further.
Qed.

(** X18. [show-playlists] puts the heading on the console and then one
    cell for each playlist of the listing, whole and in the order of the
    remote, however many pages the listing takes (no cell for an empty
    listing), when the console can render every name; otherwise it
    raises [MarkupError] for the first name that the console cannot
    render, with the heading shown and no cell.  It changes nothing
    else. *)
Theorem X18_show_playlists_shows_all `{H : Host}
    (listing : list Playlist) (tracks : string → list Item) (fuel : nat)
    (shown : list renderable) (user_input : string) (w : World) :
  length listing < fuel →
  ((∀ playlist, playlist ∈ listing → markup_error (pl_name playlist) = false) →
   handle_show_playlists (serve listing tracks) fuel shown user_input w
   = (Ret tt, w,
      shown ++ [Markdown "# Available Playlists" (Some "white");
                Columns (map pl_name listing)]))
  ∧ (∀ pre playlist post,
       listing = pre ++ playlist :: post →
       (∀ earlier, earlier ∈ pre → markup_error (pl_name earlier) = false) →
       markup_error (pl_name playlist) = true →
       handle_show_playlists (serve listing tracks) fuel shown user_input w
       = (Raise (MarkupError (pl_name playlist)), w,
          shown ++ [Markdown "# Available Playlists" (Some "white")])).
Proof.
  intros Hfuel.
  assert (get_all_playlists (serve listing tracks) fuel = Ret listing) as Hlist.
  { unfold get_all_playlists.
    by rewrite (playlists_loop_paged listing tracks 50) by (simpl; lia). }
  split.
  - intros Hall. unfold handle_show_playlists. rewrite Hlist.
    rewrite find_none_all; [by rewrite <- app_assoc|].
    intros name (playlist & -> & Hin)%list_elem_of_fmap. by apply Hall.
  - intros pre playlist post -> Hpre Hbad. unfold handle_show_playlists. rewrite Hlist.
    rewrite map_app, map_cons, (find_first_app _ _ _ (pl_name playlist)); [done| |done].
    intros name (earlier & -> & Hin)%list_elem_of_fmap. by apply Hpre.
Qed.

(** Three playlists with names that the console renders. *)
Lemma X18_witness :
  handle_show_playlists (H := plain_host) (serve three_playlists (λ _, [])) 4 []
                        EmptyString empty_world
  = (Ret tt, empty_world,
     [Markdown "# Available Playlists" (Some "white"); Columns ["Alpha"; "Beta"; "Gamma"]]).
Proof.
  refine (proj1 (X18_show_playlists_shows_all (H := plain_host) three_playlists (λ _, []) 4
                   [] EmptyString empty_world _) _).
  - simpl. lia.
  - intros playlist Hin. unfold three_playlists in Hin.
    repeat (apply elem_of_cons in Hin as [->|Hin]; [vm_compute; reflexivity|]).
    by apply not_elem_of_nil in Hin.
Defined.

(** A playlist named with a closing tag: the heading is shown, the
    columns are not, and the loop, which prints the text of the error
    with that name in it, ends there. *)
Example show_playlists_markup_ends_session :
  handle_show_playlists (H := plain_host)
    (serve [ {| pl_id := "id-a"; pl_name := "Alpha" |};
             {| pl_id := "id-s"; pl_name := "summer [/x]" |} ] (λ _, [])) 3 []
    EmptyString empty_world
  = (Raise (MarkupError "summer [/x]"), empty_world,
     [Markdown "# Available Playlists" (Some "white")])
  ∧ (get_user_input (T := plain_text)
       (H := ascii_host (λ _ _, None)
               (λ e, match e with
                     | MarkupError markup => "closing tag in " +:+ markup
                     | _ => "error"
                     end)
               (λ _, "traceback"))
       (COMMANDS (T := plain_text)
          (H := ascii_host (λ _ _, None)
                  (λ e, match e with
                        | MarkupError markup => "closing tag in " +:+ markup
                        | _ => "error"
                        end)
                  (λ _, "traceback"))
          (serve [ {| pl_id := "id-a"; pl_name := "Alpha" |};
                   {| pl_id := "id-s"; pl_name := "summer [/x]" |} ] (λ _, [])) 3)
       ["show-playlists"; "q"] fresh_session).1 = MarkupFailure.
Proof. split; vm_compute; reflexivity. Qed.

Lemma endswith_app (s suffix : string) : endswith (s +:+ suffix) suffix = true.
Proof.
  induction s as [|c s IH].
  - destruct suffix; simpl; [done|]. by rewrite Ascii.eqb_refl, String.eqb_refl.
  - rewrite append_cons. simpl. rewrite IH. apply orb_true_r.
Qed.

(** X19. [view-archive] prints that no archived playlists were found
    when nothing is at [archive] and shows nothing then; otherwise it
    shows the heading and one cell for each entry of the directory whose
    name ends in [playlist_archive.md], in the order the system lists
    them, so every file that the writer has named and the directory
    lists has its cell; it changes no file. *)
Theorem X19_view_archive `{T : TextLib} `{H : Host}
    (shown : list renderable) (user_input : string) (w : World) :
  ("archive" ∉ dirs w → files w !! "archive" = None →
   handle_view_archive shown user_input w
   = (Ret shown, with_stdout (stdout w ++ ["No archived playlists found"]) w))
  ∧ (∀ entries,
       "archive" ∈ dirs w → listdir w "archive" = Some entries →
       handle_view_archive shown user_input w
       = (Ret (shown ++ [Markdown "# Archived Playlists" (Some "white");
                         Columns (map display_name
                                    (List.filter
                                       (λ filename, endswith filename "playlist_archive.md")
                                       entries))]), w)
       ∧ ∀ playlist_name,
           lower (replace_space playlist_name) +:+ "_playlist_archive.md" ∈ entries →
           display_name (lower (replace_space playlist_name) +:+ "_playlist_archive.md")
           ∈ map display_name
               (List.filter (λ filename, endswith filename "playlist_archive.md") entries)).
Proof.
  split.
  - intros Hdir Hfile. unfold handle_view_archive. rewrite bind_run. unfold os_path_exists.
    rewrite Hfile, (bool_decide_eq_false_2 _ Hdir).
    by rewrite (bool_decide_eq_false_2 (is_Some None)) by (by intros [? ?]).
  - intros entries Hdir Hlist. split.
    + unfold handle_view_archive. rewrite bind_run. unfold os_path_exists.
      rewrite (bool_decide_eq_true_2 _ Hdir), orb_true_l. cbv beta iota.
      rewrite bind_run. unfold os_listdir. by rewrite Hlist.
    + intros playlist_name Hin. apply list_elem_of_fmap_2'
        with (x := lower (replace_space playlist_name) +:+ "_playlist_archive.md");
        [|done].
      apply list_elem_of_In, filter_In. split; [by apply list_elem_of_In|].
      change "_playlist_archive.md" with ("_" +:+ "playlist_archive.md").
      rewrite <- append_assoc. apply endswith_app.
Qed.

(** X20. In the loop, the [archive] command with no name raises the
    warning that asks for one, and with a name that has no exact match
    in the listing it prints the suggestions of the scorer, if any, on
    the output and raises the warning that the playlist was not found;
    no file changes.  When the console renders the warning, it is shown
    and the loop goes on to the next line; when it cannot, which is so
    for a name that holds a closing tag, the [MarkupError] of that print
    ends the loop with nothing shown after the prompt. *)
Theorem X20_archive_command_warns `{T : TextLib} `{H : Host}
    (sp : Spotify) (fuel : nat) (line : string) (words : list string) (s : Session) :
  strip line ≠ EmptyString →
  split (strip line) = "archive" :: words →
  (words = [] →
   get_user_input_turn (COMMANDS sp fuel) line s
   = if markup_error ("[bold yellow]Warning:[/bold yellow] "
                      +:+ "Please enter a valid playlist name after archive-playlist.")
     then (Some MarkupFailure,
           {| world := world s;
              console := console s ++ [Input "[bold green]INPUT:[/bold green] "] |})
     else (None,
           {| world := world s;
              console := console s
                         ++ [Input "[bold green]INPUT:[/bold green] ";
                             Text ("[bold yellow]Warning:[/bold yellow] "
                                   +:+ "Please enter a valid playlist name after archive-playlist.")
                                  None] |}))
  ∧ (∀ playlists,
       words ≠ [] → join " " words ≠ EmptyString →
       get_all_playlists sp fuel = Ret playlists →
       List.find (exact_match (join " " words)) playlists = None →
       (markup_error ("[bold yellow]Warning:[/bold yellow] "
                      +:+ "Playlist '" +:+ join " " words
                      +:+ "' not found. Please try again.") = false →
        get_user_input_turn (COMMANDS sp fuel) line s
        = (None,
           {| world := with_stdout (stdout (world s)
                                    ++ suggestion_lines (join " " words) playlists 80)
                                   (world s);
              console := console s
                         ++ [Input "[bold green]INPUT:[/bold green] ";
                             Text ("[bold yellow]Warning:[/bold yellow] "
                                   +:+ "Playlist '" +:+ join " " words
                                   +:+ "' not found. Please try again.")
                                  None] |}))
       ∧ (markup_error ("[bold yellow]Warning:[/bold yellow] "
                        +:+ "Playlist '" +:+ join " " words
                        +:+ "' not found. Please try again.") = true →
          get_user_input_turn (COMMANDS sp fuel) line s
          = (Some MarkupFailure,
             {| world := with_stdout (stdout (world s)
                                      ++ suggestion_lines (join " " words) playlists 80)
                                     (world s);
                console := console s ++ [Input "[bold green]INPUT:[/bold green] "] |}))).
Proof.
  intros Hline Hparts. unfold get_user_input_turn.
  destruct (strip line) as [|c user_input]; [done|]. rewrite Hparts.
  change (COMMANDS sp fuel "archive")
    with (Some (Run (returning (λ shown user_input,
                                  handle_archive_playlist sp user_input fuel;; mret shown)))).
  cbv beta iota. unfold returning. split.
  - intros ->. rewrite bind_run. unfold handle_archive_playlist, raise.
    cbv beta iota. unfold error_texts, console_print_all.
    destruct (markup_error _); [done|]. by rewrite <- app_assoc.
  - intros playlists Hwords Hname Hlist Hfind.
    destruct words as [|word words]; [done|].
    rewrite bind_run. unfold handle_archive_playlist.
    destruct (join " " (word :: words)) as [|c' name] eqn:Hjoin; [done|].
    rewrite bind_run, resolver_run, Hlist, Hfind. cbv beta iota.
    unfold truthy, raise. cbv beta iota. unfold error_texts, console_print_all.
    split; intros ->; [|done]. by rewrite <- app_assoc.
Qed.

(** "archive Ghost List" against [real_list_remote]. *)
Lemma X20_witness :
  get_user_input_turn (T := plain_text) (H := plain_host)
    (COMMANDS (T := plain_text) (H := plain_host) real_list_remote 1)
    "archive  Ghost   List" fresh_session
  = (None,
     {| world := with_stdout (stdout empty_world
                              ++ suggestion_lines (T := plain_text) "Ghost List"
                                   [ {| pl_id := "id-real"; pl_name := "RealList" |} ] 80)
                             empty_world;
        console := [Input "[bold green]INPUT:[/bold green] ";
                    Text ("[bold yellow]Warning:[/bold yellow] "
                          +:+ "Playlist 'Ghost List' not found. Please try again.")
                         None] |}).
Proof.
  refine (proj1 (proj2 (X20_archive_command_warns (T := plain_text) (H := plain_host)
                          real_list_remote 1 "archive  Ghost   List" ["Ghost"; "List"]
                          fresh_session _ _)
                   [ {| pl_id := "id-real"; pl_name := "RealList" |} ] _ _ _ _) _).
  - vm_compute. discriminate.
  - vm_compute. reflexivity.
  - discriminate.
  - vm_compute. discriminate.
  - reflexivity.
  - vm_compute. reflexivity.
  - vm_compute. reflexivity.
Defined.

(** A name with a closing tag: the warning cannot be shown and the loop
    ends, whatever is typed next. *)
Example archive_markup_ends_session :
  (get_user_input (T := plain_text) (H := plain_host)
     (COMMANDS (T := plain_text) (H := plain_host) real_list_remote 1)
     ["archive mix [/b]"; "q"] fresh_session).1 = MarkupFailure.
Proof. vm_compute. reflexivity. Qed.
